(** * utils.py: energy of an N-body system and splitting of particles
      across chunks

    The development follows the source file [utils.py]:

    - [Partitioner]: [split_size], on Python's unbounded integers ([Z]),
      with [//] and [%] raising [ZeroDivisionError] on a zero divisor;
    - [Energy]: [compute_kinetic_energy], [compute_potential_energy] and
      [compute_energy], written over the operations of the array elements,
      with the [assert] on the shape of [mass] as a raised exception and
      [np.sum] adding in numpy's order;
    - [Float64]: the arithmetic of IEEE binary64 (numpy's [float]), in
      which the code runs.

    Definitions come first, the properties after them. *)

From Stdlib Require Import String.
From Stdlib Require Import ZArith List Lia Bool FinFun.
From Stdlib Require Import Floats.
Import ListNotations.

(** ** Exceptions and results *)

Inductive exn : Type :=
| AssertionError (msg : string)
| ValueError
| IndexError
| ZeroDivisionError.

Inductive result (A : Type) : Type :=
| Ok (a : A)
| Raise (e : exn).

Arguments Ok {A} a.
Arguments Raise {A} e.

Definition bind {A B : Type} (r : result A) (k : A -> result B) : result B :=
  match r with
  | Ok a => k a
  | Raise e => Raise e
  end.

Declare Scope result_scope.
Delimit Scope result_scope with result.
Notation "x <- r ;; k" := (bind r (fun x => k))
  (at level 61, r at next level, right associativity) : result_scope.

(** [assert cond, msg] *)
Definition assert (cond : bool) (msg : string) : result unit :=
  if cond then Ok tt else Raise (AssertionError msg).

(** [l[i]] for an index [i >= 0]: [IndexError] out of range. *)
Definition getitem {A : Type} (l : list A) (i : nat) : result A :=
  match nth_error l i with
  | Some x => Ok x
  | None => Raise IndexError
  end.

(** [mapM f l]: the list comprehension [[f(x) for x in l]] whose body can
    raise; the first exception stops it. *)
Fixpoint mapM {A B : Type} (f : A -> result B) (l : list A) : result (list B) :=
  match l with
  | [] => Ok []
  | x :: xs =>
      (y <- f x ;; ys <- mapM f xs ;; Ok (y :: ys))%result
  end.

(** [for x in l: s = body(s, x)], from the state [s]; an exception in the
    body leaves the loop. *)
Fixpoint for_loop {A S : Type} (l : list A) (s : S) (body : S -> A -> result S)
  : result S :=
  match l with
  | [] => Ok s
  | x :: xs => (s' <- body s x ;; for_loop xs s' body)%result
  end.

(** [range(a, b)] on indices. *)
Definition range (a b : nat) : list nat := seq a (b - a).

(** ** The partitioner *)

Module Partitioner.

Local Open Scope Z_scope.

(** Python's [a // b] on integers: floor division, [ZeroDivisionError]
    when [b] is zero.  [Z.div] rounds towards minus infinity as Python
    does. *)
Definition py_floordiv (a b : Z) : result Z :=
  if b =? 0 then Raise ZeroDivisionError else Ok (a / b).

(** Python's [a % b] on integers: the remainder has the sign of [b]. *)
Definition py_mod (a b : Z) : result Z :=
  if b =? 0 then Raise ZeroDivisionError else Ok (a mod b).

(** [split_size]:
    [return (N_parts // N_chunks) + int((N_parts % N_chunks) > i)] *)
Definition split_size (N_parts N_chunks i : Z) : result Z :=
  (q <- py_floordiv N_parts N_chunks ;;
   r <- py_mod N_parts N_chunks ;;
   Ok (q + Z.b2z (r >? i)))%result.

(** [range(n)] on integers. *)
Definition zrange (n : Z) : list Z := map Z.of_nat (range 0 (Z.to_nat n)).

(** [sum(l)] on a list of integers. *)
Definition sum (l : list Z) : Z := fold_left Z.add l 0.

(** The sizes of all the chunks:
    [[split_size(N_parts, N_chunks, i) for i in range(N_chunks)]] *)
Definition chunk_sizes (N_parts N_chunks : Z) : result (list Z) :=
  mapM (split_size N_parts N_chunks) (zrange N_chunks).

End Partitioner.

(** ** The energy evaluator *)

(** The arithmetic of the array elements: the operations and literals that
    the three energy functions use on numpy's [float]. *)
Class Arith (F : Type) : Type := {
  fzero : F;                (* the literal [0.] *)
  fhalf : F;                (* the literal [0.5] *)
  fadd : F -> F -> F;       (* [+], and the accumulation of [np.sum] *)
  fsub : F -> F -> F;       (* [-] *)
  fmul : F -> F -> F;       (* [*] *)
  fdiv : F -> F -> F;       (* [/] on numpy scalars: never raises *)
  fsqrt : F -> F            (* [np.sqrt] *)
}.

Module Energy.

Section Generic.

Context {F : Type} `{Arith F}.

(** An [N x d] array is the list of its [N] rows.  [np.array(a)] on a list
    of lists whose lengths differ raises [ValueError]; [.astype(float)] is
    the identity on elements that are floats already. *)
Definition rectangular (a : list (list F)) : bool :=
  match a with
  | [] => true
  | r :: rs => forallb (fun r' => length r' =? length r)%nat rs
  end.

Definition np_array (a : list (list F)) : result (list (list F)) :=
  if rectangular a then Ok a else Raise ValueError.

(** [a.shape[0]] *)
Definition shape0 (a : list (list F)) : nat := length a.

(** [mass.shape == (N_part,)] for the one-dimensional array [mass]. *)
Definition shape_is (mass : list F) (N_part : nat) : bool :=
  (length mass =? N_part)%nat.

(** [u - v] on two rows of one array. *)
Definition vsub (u v : list F) : list F :=
  map (fun p => fsub (fst p) (snd p)) (combine u v).

(** [x ** 2]: numpy squares by one multiplication. *)
Definition square (x : F) : F := fmul x x.

(** [v ** 2] on a row. *)
Definition vsquare (v : list F) : list F := map square v.

(** [res += a[i]] for the elements of [l] in turn. *)
Definition accumulate (res : F) (l : list F) : F := fold_left fadd l res.

(** [r[j] += a[i + j]] for the eight accumulators [r]. *)
Definition add8 (r block : list F) : list F :=
  map (fun p => fadd (fst p) (snd p)) (combine r block).

(** The loop [for (i = 8; i < n - (n % 8); i += 8)] of numpy's block sum:
    every full block of eight elements of [l] is added to the eight
    accumulators; what is returned is the accumulators and the [n % 8]
    elements left over. *)
Fixpoint add_blocks (fuel : nat) (r l : list F) : list F * list F :=
  match fuel with
  | O => (r, l)
  | S fuel' =>
      if (8 <=? length l)%nat
      then add_blocks fuel' (add8 r (firstn 8 l)) (skipn 8 l)
      else (r, l)
  end.

(** [((r[0] + r[1]) + (r[2] + r[3])) + ((r[4] + r[5]) + (r[6] + r[7]))] *)
Definition sum8 (r : list F) : F :=
  match r with
  | [r0; r1; r2; r3; r4; r5; r6; r7] =>
      fadd (fadd (fadd r0 r1) (fadd r2 r3)) (fadd (fadd r4 r5) (fadd r6 r7))
  | _ => fzero
  end.

(** numpy's pairwise summation of [n] contiguous elements
    ([DOUBLE_pairwise_sum]):
    - [n < 8]: the elements are added one after the other (the accumulator
      starts at [-0.0], which leaves the first element as it is);
    - [n <= 128]: eight accumulators take the elements eight by eight, are
      added two by two, and the elements left over are added one after the
      other;
    - otherwise the array is cut at [n2 = n / 2 - (n / 2) % 8] and the sums
      of the two parts are added.
    Each part is shorter than the array, so [fuel] at least the length is
    never used up. *)
Fixpoint pairwise_sum (fuel : nat) (a : list F) : F :=
  let n := length a in
  if (n <? 8)%nat then
    match a with
    | [] => fzero
    | x :: rest => accumulate x rest
    end
  else if (n <=? 128)%nat then
    let '(r, rest) := add_blocks n (firstn 8 a) (skipn 8 a) in
    accumulate (sum8 r) rest
  else
    match fuel with
    | O => fzero
    | S fuel' =>
        let n2 := (n / 2 - (n / 2) mod 8)%nat in
        fadd (pairwise_sum fuel' (firstn n2 a))
             (pairwise_sum fuel' (skipn n2 a))
    end.

(** [np.sum] of a one-dimensional array: [0.] when it is empty, the
    pairwise sum of its elements otherwise. *)
Definition np_sum (v : list F) : F := pairwise_sum (length v) v.

(** [a.T] of an [N x d] array: the [d x N] array whose row [k] holds the
    component [k] of every row of [a]; empty when [a] has no row. *)
Definition transpose (a : list (list F)) : list (list F) :=
  match a with
  | [] => []
  | r :: _ => map (fun k => map (fun row => nth k row fzero) a) (seq 0 (length r))
  end.

(** [a ** 2.] on a two-dimensional array. *)
Definition square2 (a : list (list F)) : list (list F) := map vsquare a.

(** [a * mass] for a [d x N] array [a] and [mass] of shape [(N,)]:
    broadcasting multiplies every row of [a] by [mass], element by
    element. *)
Definition mul_broadcast (a : list (list F)) (mass : list F) : list (list F) :=
  map (fun row => map (fun p => fmul (fst p) (snd p)) (combine row mass)) a.

(** [np.sum] of the two-dimensional array [vel.T**2. * mass]: numpy gives
    that [d x N] array the memory layout of [vel.T], in which the
    components of one particle follow each other, and adds its elements in
    memory order as one one-dimensional array. *)
Definition np_sum2 (a : list (list F)) : F := np_sum (concat (transpose a)).

(** [compute_potential_energy(pos, mass, G)] *)
Definition compute_potential_energy
  (pos : list (list F)) (mass : list F) (G : F) : result F :=
  (pos <- np_array pos ;;
   let N_part := shape0 pos in
   _ <- assert (shape_is mass N_part)
          "input masses must match length of input positions" ;;
   for_loop (range 0 N_part) fzero (fun U i =>
     for_loop (range (i + 1) N_part) U (fun U j =>
       pi <- getitem pos i ;;
       pj <- getitem pos j ;;
       let r := fsqrt (np_sum (vsquare (vsub pi pj))) in
       mi <- getitem mass i ;;
       mj <- getitem mass j ;;
       Ok (fsub U (fdiv (fmul (fmul G mi) mj) r)))))%result.

(** [compute_kinetic_energy(vel, mass)] *)
Definition compute_kinetic_energy
  (vel : list (list F)) (mass : list F) : result F :=
  (vel <- np_array vel ;;
   let N_part := shape0 vel in
   _ <- assert (shape_is mass N_part)
          "input masses must match length of input velocities" ;;
   Ok (fmul (np_sum2 (mul_broadcast (square2 (transpose vel)) mass)) fhalf))%result.

(** [compute_energy(pos, vel, mass, G)] *)
Definition compute_energy
  (pos vel : list (list F)) (mass : list F) (G : F) : result F :=
  (U <- compute_potential_energy pos mass G ;;
   K <- compute_kinetic_energy vel mass ;;
   Ok (fadd U K))%result.

(** *** What the loops of [compute_potential_energy] go through *)

(** The distance [r] that the loop body computes for the rows [i], [j]. *)
Definition loop_distance (pos : list (list F)) (i j : nat) : F :=
  fsqrt (np_sum (vsquare (vsub (nth i pos []) (nth j pos [])))).

(** The term [G * mass[i] * mass[j] / r] that the loop body subtracts. *)
Definition loop_term (pos : list (list F)) (mass : list F) (G : F)
  (p : nat * nat) : F :=
  fdiv (fmul (fmul G (nth (fst p) mass fzero)) (nth (snd p) mass fzero))
       (loop_distance pos (fst p) (snd p)).

(** The index pairs in the order in which the two loops reach them. *)
Definition index_pairs (N_part : nat) : list (nat * nat) :=
  flat_map (fun i => map (pair i) (range (i + 1) N_part)) (range 0 N_part).

(** *** The quantities of the specification *)

(** An array of [N] vectors of dimension [d]. *)
Definition array_of_dim (d : nat) (a : list (list F)) : Prop :=
  Forall (fun row => length row = d) a.





End Generic.

End Energy.

(** ** The arithmetic of the code *)

(** numpy's [float] is IEEE binary64, Rocq's primitive [float]. *)
Module Float64.

#[export] Instance arith : Arith float := {|
  fzero := 0%float;
  fhalf := 0.5%float;
  fadd := PrimFloat.add;
  fsub := PrimFloat.sub;
  fmul := PrimFloat.mul;
  fdiv := PrimFloat.div;
  fsqrt := PrimFloat.sqrt
|}.

(** The default value of the argument [G]. *)
Definition G_default : float := 0x1.25598616dd9f1p-34%float. (* 6.67e-11 *)

(** A float that is an infinity or a NaN. *)
Definition not_finite (x : float) : bool := is_nan x || is_infinity x.

(** The same on the specification of a float: an infinity or a NaN. *)
Definition sf_not_finite (x : spec_float) : bool :=
  match x with
  | S754_infinity _ | S754_nan => true
  | _ => false
  end.

(** A zero of either sign, or a NaN. *)
Definition sf_zero_or_nan (x : spec_float) : bool :=
  match x with
  | S754_zero _ | S754_nan => true
  | _ => false
  end.

(** The positive zero, or a NaN. *)
Definition sf_pzero_or_nan (x : spec_float) : bool :=
  match x with
  | S754_zero false | S754_nan => true
  | _ => false
  end.

(** A zero of either sign. *)
Definition sf_is_zero (x : spec_float) : bool :=
  match x with
  | S754_zero _ => true
  | _ => false
  end.

(** [u] is the opposite of [s], up to the sign of a zero. *)
Definition sf_opposite (u s : spec_float) : Prop :=
  u = SFopp s \/ (sf_is_zero u = true /\ sf_is_zero s = true).


(** Two rows that are equal component by component: the same float, or
    two floats that [==] holds of. *)
Definition rows_equal (u v : list float) : Prop :=
  Forall2 (fun x y => x = y \/ PrimFloat.eqb x y = true) u v.

End Float64.

(** ** Laying the chunks out one after the other *)

Module Slicing.

Import Partitioner.
Local Open Scope Z_scope.

(** The index of the first particle of chunk [k] when the chunks follow
    each other in index order:
    [sum(split_size(N_parts, N_chunks, i) for i in range(k))]. *)
Definition chunk_start (N_parts N_chunks k : Z) : result Z :=
  (sizes <- mapM (split_size N_parts N_chunks) (zrange k) ;;
   Ok (sum sizes))%result.

(** Particle [p] lies in the slice of chunk [k]. *)
Definition owns (N_parts N_chunks k p : Z) : Prop :=
  exists s n,
    chunk_start N_parts N_chunks k = Ok s
    /\ split_size N_parts N_chunks k = Ok n
    /\ s <= p < s + n.

End Slicing.

(** ** Signs of binary64 values *)

Module Signs.

(** A NaN, or a float whose sign bit is [sx]. *)
Definition sf_sign_is (sx : bool) (x : spec_float) : bool :=
  match x with
  | S754_nan => true
  | S754_zero s | S754_infinity s | S754_finite s _ _ => Bool.eqb s sx
  end.

(** A NaN, a zero, or a positive float: what [x < 0] is false of. *)
Definition sf_not_negative (x : spec_float) : bool :=
  match x with
  | S754_nan | S754_zero _ => true
  | S754_infinity s | S754_finite s _ _ => negb s
  end.

(** A NaN, a zero, or a negative float: what [0 < x] is false of. *)
Definition sf_not_positive (x : spec_float) : bool :=
  match x with
  | S754_nan | S754_zero _ => true
  | S754_infinity s | S754_finite s _ _ => s
  end.

(** [-a] on a two-dimensional array. *)
Definition negate (a : list (list float)) : list (list float) :=
  map (map PrimFloat.opp) a.

End Signs.

(** ** The energy that [save_results] reports *)

Module Reporting.

Import Energy Float64.

(** [np.ones(n)] *)
Definition np_ones (n : nat) : list float := repeat 1%float n.

(** The value of [E_total] in [save_results]:
    [E_total = compute_energy(pos, vel, np.ones(len(pos)))], every particle
    with mass one and [G] at its default.  The rest of [save_results]
    (the clock, the formatting of the header and the file written by
    [np.savetxt]) is not part of this development. *)
Definition save_results_energy (pos vel : list (list float)) : result float :=
  compute_energy pos vel (np_ones (length pos)) G_default.

End Reporting.

(** * Properties *)

(** ** The partitioner *)

Section PartitionerFacts.

Import Partitioner.
Local Open Scope Z_scope.

Lemma split_size_eq (N_parts N_chunks i : Z) :
  N_chunks <> 0 ->
  split_size N_parts N_chunks i
  = Ok (N_parts / N_chunks + Z.b2z (N_parts mod N_chunks >? i)).
Proof.
  intros Hc. unfold split_size, py_floordiv, py_mod.
  destruct (Z.eqb_spec N_chunks 0) as [E | _]; [contradiction | reflexivity].
Qed.

Lemma split_size_zero_chunks (N_parts i : Z) :
  split_size N_parts 0 i = Raise ZeroDivisionError.
Proof. reflexivity. Qed.

Lemma mapM_total {A B : Type} (f : A -> result B) (g : A -> B) (l : list A) :
  (forall x, In x l -> f x = Ok (g x)) -> mapM f l = Ok (map g l).
Proof.
  induction l as [| x xs IH]; intros Hf; simpl.
  - reflexivity.
  - rewrite (Hf x (or_introl eq_refl)). simpl.
    rewrite IH by (intros y Hy; apply Hf; right; exact Hy).
    reflexivity.
Qed.

Lemma sum_acc (l : list Z) (a : Z) : fold_left Z.add l a = a + sum l.
Proof.
  unfold sum. revert a.
  induction l as [| x xs IH]; intros a; simpl.
  - lia.
  - rewrite IH, (IH x). lia.
Qed.

Lemma sum_app (l1 l2 : list Z) : sum (l1 ++ l2) = sum l1 + sum l2.
Proof.
  unfold sum at 1. rewrite fold_left_app. fold (sum l1). apply sum_acc.
Qed.

(** The first [n] chunks hold [n] times the quotient, plus one for each of
    them that is below the remainder. *)
Lemma sum_first_chunks (q r : Z) (n : nat) :
  0 <= r ->
  sum (map (fun i => q + Z.b2z (r >? i)) (map Z.of_nat (seq 0 n)))
  = Z.of_nat n * q + Z.min r (Z.of_nat n).
Proof.
  intros Hr. induction n as [| n IH].
  - simpl. unfold sum. simpl. lia.
  - rewrite seq_S, !map_app, sum_app, IH, Nat2Z.inj_succ.
    cbn [map Nat.add]. unfold sum. cbn [fold_left].
    destruct (Z.gtb_spec r (Z.of_nat n)); cbn [Z.b2z]; lia.
Qed.

Lemma in_zrange (n i : Z) : In i (zrange n) <-> 0 <= i < n.
Proof.
  unfold zrange, range. rewrite in_map_iff. split.
  - intros [k [<- Hk]]. apply in_seq in Hk. lia.
  - intros Hi. exists (Z.to_nat i). split; [lia |].
    apply in_seq. lia.
Qed.

Lemma Forall2_map_r {A B : Type} (P : A -> B -> Prop) (g : A -> B) (l : list A) :
  (forall x, In x l -> P x (g x)) -> Forall2 P l (map g l).
Proof.
  induction l as [| x xs IH]; intros Hg; simpl; constructor.
  - apply Hg. now left.
  - apply IH. intros y Hy. apply Hg. now right.
Qed.

(** C1. Completeness of the partition: with at least one chunk, the sizes
    of the chunks [0 .. N_chunks - 1] are all defined and add up to
    [N_parts]; [split_size(0, 5, 0)] is [0], and every chunk of an empty
    set of particles has size [0]. *)
Theorem split_size_complete (N_parts N_chunks : Z) :
  0 <= N_parts -> 1 <= N_chunks ->
  (exists sizes,
      chunk_sizes N_parts N_chunks = Ok sizes
      /\ Forall2 (fun i s => split_size N_parts N_chunks i = Ok s)
           (zrange N_chunks) sizes
      /\ sum sizes = N_parts)
  /\ split_size 0 5 0 = Ok 0
  /\ (forall i, 0 <= i < N_chunks -> split_size 0 N_chunks i = Ok 0).
Proof.
  intros HN Hc. split; [| split].
  - set (g := fun i => N_parts / N_chunks + Z.b2z (N_parts mod N_chunks >? i)).
    exists (map g (zrange N_chunks)). split; [| split].
    + apply mapM_total. intros i _. apply split_size_eq. lia.
    + apply Forall2_map_r. intros i _. apply split_size_eq. lia.
    + unfold zrange, range. rewrite Nat.sub_0_r.
      subst g. rewrite sum_first_chunks by (apply Z.mod_pos_bound; lia).
      rewrite Z2Nat.id by lia.
      pose proof (Z.mod_pos_bound N_parts N_chunks ltac:(lia)) as Hr.
      pose proof (Z.div_mod N_parts N_chunks ltac:(lia)) as Hd.
      rewrite Z.min_l by lia. lia.
  - reflexivity.
  - intros i Hi. rewrite split_size_eq by lia.
    rewrite Z.div_0_l, Z.mod_0_l by lia.
    destruct (Z.gtb_spec 0 i); [lia | reflexivity].
Qed.

Lemma split_size_complete_witness :
  (exists sizes,
      chunk_sizes 1000 11 = Ok sizes
      /\ Forall2 (fun i s => split_size 1000 11 i = Ok s) (zrange 11) sizes
      /\ sum sizes = 1000)
  /\ split_size 0 5 0 = Ok 0
  /\ (forall i, 0 <= i < 11 -> split_size 0 11 i = Ok 0).
Proof. apply (split_size_complete 1000 11); lia. Defined.

(** C2. Fairness of the partition: with [q] the floor of
    [N_parts / N_chunks] and [r] the remainder, the chunks [0 .. r - 1] get
    [q + 1] particles and the chunks [r .. N_chunks - 1] get [q]; two chunk
    sizes differ by at most one. *)
Theorem split_size_fair (N_parts N_chunks : Z) :
  0 <= N_parts -> 1 <= N_chunks ->
  let q := N_parts / N_chunks in
  let r := N_parts mod N_chunks in
  (N_chunks * q <= N_parts < N_chunks * (q + 1)
   /\ N_parts = N_chunks * q + r /\ 0 <= r < N_chunks)
  /\ (forall i, 0 <= i < r -> split_size N_parts N_chunks i = Ok (q + 1))
  /\ (forall i, r <= i < N_chunks -> split_size N_parts N_chunks i = Ok q)
  /\ (forall i j, 0 <= i < N_chunks -> 0 <= j < N_chunks ->
      exists si sj,
        split_size N_parts N_chunks i = Ok si
        /\ split_size N_parts N_chunks j = Ok sj
        /\ Z.abs (si - sj) <= 1).
Proof.
  intros HN Hc q r.
  pose proof (Z.mod_pos_bound N_parts N_chunks ltac:(lia)) as Hr.
  pose proof (Z.div_mod N_parts N_chunks ltac:(lia)) as Hd.
  fold q r in Hr, Hd.
  split; [| split; [| split]].
  - lia.
  - intros i Hi. rewrite split_size_eq by lia. fold q r.
    destruct (Z.gtb_spec r i); cbn [Z.b2z]; [reflexivity | lia].
  - intros i Hi. rewrite split_size_eq by lia. fold q r.
    destruct (Z.gtb_spec r i); cbn [Z.b2z]; [lia | f_equal; lia].
  - intros i j _ _. rewrite !split_size_eq by lia. fold q r.
    eexists; eexists. split; [reflexivity | split; [reflexivity |]].
    destruct (r >? i), (r >? j); cbn [Z.b2z]; lia.
Qed.

Lemma split_size_fair_witness :
  (11 * 90 <= 1000 < 11 * (90 + 1) /\ 1000 = 11 * 90 + 10 /\ 0 <= 10 < 11)
  /\ (forall i, 0 <= i < 10 -> split_size 1000 11 i = Ok (90 + 1))
  /\ (forall i, 10 <= i < 11 -> split_size 1000 11 i = Ok 90)
  /\ (forall i j, 0 <= i < 11 -> 0 <= j < 11 ->
      exists si sj,
        split_size 1000 11 i = Ok si
        /\ split_size 1000 11 j = Ok sj
        /\ Z.abs (si - sj) <= 1).
Proof. apply (split_size_fair 1000 11); lia. Defined.

(** C3. The formula of [split_size]: for [N_parts >= 0], [N_chunks >= 1]
    and [chunk_index >= 0] the result is the floor of
    [N_parts / N_chunks], plus one when the remainder is above the chunk
    index; [split_size(1000, 11, 0)] is [91] and [split_size(1000, 11, 10)]
    is [90]. *)
Theorem split_size_formula (N_parts N_chunks chunk_index : Z) :
  0 <= N_parts -> 1 <= N_chunks -> 0 <= chunk_index ->
  (forall q r, N_parts = N_chunks * q + r -> 0 <= r < N_chunks ->
     split_size N_parts N_chunks chunk_index
     = Ok (if r >? chunk_index then q + 1 else q))
  /\ split_size N_parts N_chunks chunk_index
     = Ok (if N_parts mod N_chunks >? chunk_index
           then N_parts / N_chunks + 1 else N_parts / N_chunks)
  /\ split_size 1000 11 0 = Ok 91
  /\ split_size 1000 11 10 = Ok 90.
Proof.
  intros HN Hc Hi.
  assert (Hgen : forall q r, N_parts = N_chunks * q + r -> 0 <= r < N_chunks ->
     split_size N_parts N_chunks chunk_index
     = Ok (if r >? chunk_index then q + 1 else q)).
  { intros q r Hq Hr. rewrite split_size_eq by lia.
    assert (Eq : N_parts / N_chunks = q)
      by (symmetry; apply (Z.div_unique_pos N_parts N_chunks q r); lia).
    assert (Er : N_parts mod N_chunks = r)
      by (symmetry; apply (Z.mod_unique_pos N_parts N_chunks q r); lia).
    rewrite Eq, Er. destruct (r >? chunk_index); cbn [Z.b2z]; f_equal; lia. }
  split; [exact Hgen | split; [| split; reflexivity]].
  apply Hgen.
  - apply Z.div_mod. lia.
  - apply Z.mod_pos_bound. lia.
Qed.

Lemma split_size_formula_witness :
  (forall q r, 1000 = 11 * q + r -> 0 <= r < 11 ->
     split_size 1000 11 3 = Ok (if r >? 3 then q + 1 else q))
  /\ split_size 1000 11 3
     = Ok (if 1000 mod 11 >? 3 then 1000 / 11 + 1 else 1000 / 11)
  /\ split_size 1000 11 0 = Ok 91
  /\ split_size 1000 11 10 = Ok 90.
Proof. apply (split_size_formula 1000 11 3); lia. Defined.

(** C9. A chunk index at or beyond [N_chunks] raises nothing and gets the
    floor of [N_parts / N_chunks], however large the index is. *)
Theorem split_size_out_of_range (N_parts N_chunks chunk_index : Z) :
  0 <= N_parts -> 1 <= N_chunks -> N_chunks <= chunk_index ->
  split_size N_parts N_chunks chunk_index = Ok (N_parts / N_chunks)
  /\ N_chunks * (N_parts / N_chunks) <= N_parts
     < N_chunks * (N_parts / N_chunks + 1).
Proof.
  intros HN Hc Hi.
  pose proof (Z.mod_pos_bound N_parts N_chunks ltac:(lia)) as Hr.
  pose proof (Z.div_mod N_parts N_chunks ltac:(lia)) as Hd.
  split; [| lia].
  rewrite split_size_eq by lia.
  destruct (Z.gtb_spec (N_parts mod N_chunks) chunk_index); cbn [Z.b2z];
    [lia | f_equal; lia].
Qed.

Lemma split_size_out_of_range_witness :
  split_size 1000 11 123456789 = Ok (1000 / 11)
  /\ 11 * (1000 / 11) <= 1000 < 11 * (1000 / 11 + 1).
Proof. apply (split_size_out_of_range 1000 11 123456789); lia. Defined.

(** C10. [split_size] does not increase with the chunk index: for
    [0 <= i <= j] the size of chunk [i] is at least the size of chunk [j],
    and at most one more. *)
Theorem split_size_monotone (N_parts N_chunks i j : Z) :
  0 <= N_parts -> 1 <= N_chunks -> 0 <= i <= j ->
  exists si sj,
    split_size N_parts N_chunks i = Ok si
    /\ split_size N_parts N_chunks j = Ok sj
    /\ sj <= si <= sj + 1.
Proof.
  intros HN Hc Hij. rewrite !split_size_eq by lia.
  eexists; eexists. split; [reflexivity | split; [reflexivity |]].
  destruct (Z.gtb_spec (N_parts mod N_chunks) i),
           (Z.gtb_spec (N_parts mod N_chunks) j); cbn [Z.b2z]; lia.
Qed.

Lemma split_size_monotone_witness :
  exists si sj,
    split_size 1000 11 9 = Ok si
    /\ split_size 1000 11 10 = Ok sj
    /\ sj <= si <= sj + 1.
Proof. apply (split_size_monotone 1000 11 9 10); lia. Defined.

End PartitionerFacts.

(** ** The energy evaluator, in any arithmetic *)

Section EnergyFacts.

Import Energy.
Context {F : Type} `{Arith F}.

Lemma getitem_nth {A : Type} (l : list A) (i : nat) (d : A) :
  (i < length l)%nat -> getitem l i = Ok (nth i l d).
Proof.
  intros Hi. unfold getitem.
  destruct (nth_error l i) as [x |] eqn:E.
  - now rewrite (nth_error_nth l i d E).
  - apply nth_error_None in E. lia.
Qed.

Lemma for_loop_pure {A S : Type} (body : S -> A -> result S) (g : S -> A -> S)
  (l : list A) (s : S) :
  (forall s' x, In x l -> body s' x = Ok (g s' x)) ->
  for_loop l s body = Ok (fold_left g l s).
Proof.
  revert s. induction l as [| x xs IH]; intros s Hb; simpl.
  - reflexivity.
  - rewrite (Hb s x (or_introl eq_refl)). simpl.
    apply IH. intros s' y Hy. apply Hb. now right.
Qed.

Lemma in_range (a b i : nat) : In i (range a b) <-> (a <= i < b)%nat.
Proof. unfold range. rewrite in_seq. lia. Qed.

Lemma array_of_dim_rectangular (d : nat) (a : list (list F)) :
  array_of_dim d a -> rectangular a = true.
Proof.
  intros Ha. destruct a as [| r rs]; [reflexivity |].
  inversion Ha as [| r' rs' Hr Hrs]; subst. simpl.
  apply forallb_forall. intros r' Hr'.
  rewrite Forall_forall in Hrs. rewrite (Hrs r' Hr').
  apply Nat.eqb_refl.
Qed.

Lemma rectangular_array_of_dim (a : list (list F)) :
  rectangular a = true -> exists d, array_of_dim d a.
Proof.
  destruct a as [| r rs]; intros Ha.
  - exists 0%nat. constructor.
  - exists (length r). constructor; [reflexivity |].
    simpl in Ha. rewrite forallb_forall in Ha.
    apply Forall_forall. intros r' Hr'. apply Nat.eqb_eq. now apply Ha.
Qed.

(** A nested loop over [i] and the [j] that depend on it is one loop over
    the pairs. *)
Lemma fold_left_pairs {S : Type} (g : S -> nat * nat -> S)
  (js : nat -> list nat) (l : list nat) (s : S) :
  fold_left (fun s i => fold_left (fun s j => g s (i, j)) (js i) s) l s
  = fold_left g (flat_map (fun i => map (pair i) (js i)) l) s.
Proof.
  revert s. induction l as [| i l IH]; intros s; simpl.
  - reflexivity.
  - rewrite fold_left_app, IH. f_equal.
    generalize (js i) s. intros l'. induction l' as [| j l' IH']; intros s'; simpl.
    + reflexivity.
    + apply IH'.
Qed.

Lemma in_index_pairs (N_part i j : nat) :
  In (i, j) (index_pairs N_part) <-> (i < j < N_part)%nat.
Proof.
  unfold index_pairs. rewrite in_flat_map. split.
  - intros [i' [Hi' Hin]]. apply in_map_iff in Hin.
    destruct Hin as [j' [Heq Hj']]. inversion Heq; subst.
    apply in_range in Hi', Hj'. lia.
  - intros Hij. exists i. split.
    + apply in_range. lia.
    + apply in_map. apply in_range. lia.
Qed.



(** With [mass] as long as [pos], no index is out of range and
    [compute_potential_energy] is one pass over the index pairs. *)
Lemma compute_potential_energy_loop
  (pos : list (list F)) (mass : list F) (G : F) :
  rectangular pos = true -> length mass = length pos ->
  compute_potential_energy pos mass G
  = Ok (fold_left (fun U p => fsub U (loop_term pos mass G p))
          (index_pairs (length pos)) fzero).
Proof.
  intros Hrect Hlen. unfold compute_potential_energy, np_array.
  rewrite Hrect. cbn [bind]. unfold shape_is, shape0.
  rewrite (proj2 (Nat.eqb_eq _ _) Hlen). cbn [assert bind].
  unfold index_pairs.
  rewrite <- (fold_left_pairs (fun U p => fsub U (loop_term pos mass G p))).
  apply for_loop_pure. intros U i Hi. apply in_range in Hi.
  apply for_loop_pure. intros U' j Hj. apply in_range in Hj.
  rewrite (getitem_nth pos i []), (getitem_nth pos j []) by lia.
  cbn [bind].
  rewrite (getitem_nth mass i fzero), (getitem_nth mass j fzero) by lia.
  reflexivity.
Qed.

Lemma compute_potential_energy_mismatch
  (pos : list (list F)) (mass : list F) (G : F) :
  rectangular pos = true -> length mass <> length pos ->
  compute_potential_energy pos mass G
  = Raise (AssertionError "input masses must match length of input positions").
Proof.
  intros Hrect Hlen. unfold compute_potential_energy, np_array.
  rewrite Hrect. cbn [bind]. unfold shape_is, shape0.
  rewrite (proj2 (Nat.eqb_neq _ _) Hlen). reflexivity.
Qed.

Lemma compute_kinetic_energy_value
  (vel : list (list F)) (mass : list F) :
  rectangular vel = true -> length mass = length vel ->
  compute_kinetic_energy vel mass
  = Ok (fmul (np_sum2 (mul_broadcast (square2 (transpose vel)) mass)) fhalf).
Proof.
  intros Hrect Hlen. unfold compute_kinetic_energy, np_array.
  rewrite Hrect. cbn [bind]. unfold shape_is, shape0.
  rewrite (proj2 (Nat.eqb_eq _ _) Hlen). reflexivity.
Qed.

Lemma compute_kinetic_energy_mismatch
  (vel : list (list F)) (mass : list F) :
  rectangular vel = true -> length mass <> length vel ->
  compute_kinetic_energy vel mass
  = Raise (AssertionError "input masses must match length of input velocities").
Proof.
  intros Hrect Hlen. unfold compute_kinetic_energy, np_array.
  rewrite Hrect. cbn [bind]. unfold shape_is, shape0.
  rewrite (proj2 (Nat.eqb_neq _ _) Hlen). reflexivity.
Qed.

(** *** [np.sum] *)

Lemma pairwise_sum_eq (fuel : nat) (a : list F) :
  pairwise_sum fuel a
  = if (length a <? 8)%nat then
      match a with
      | [] => fzero
      | x :: rest => accumulate x rest
      end
    else if (length a <=? 128)%nat then
      let '(r, rest) := add_blocks (length a) (firstn 8 a) (skipn 8 a) in
      accumulate (sum8 r) rest
    else
      match fuel with
      | O => fzero
      | S fuel' =>
          let n2 := (length a / 2 - (length a / 2) mod 8)%nat in
          fadd (pairwise_sum fuel' (firstn n2 a))
               (pairwise_sum fuel' (skipn n2 a))
      end.
Proof. destruct fuel; reflexivity. Qed.

(** The two parts of a long array are shorter than the array. *)
Lemma pairwise_cut (n : nat) :
  (128 < n)%nat ->
  (0 < n / 2 - (n / 2) mod 8 < n)%nat.
Proof.
  intros Hn.
  pose proof (Nat.div_mod_eq n 2) as Hd.
  pose proof (Nat.mod_upper_bound n 2 ltac:(lia)) as Hm.
  pose proof (Nat.mod_upper_bound (n / 2) 8 ltac:(lia)) as Hm8.
  lia.
Qed.

(** The fuel does not matter once it is at least the length: the sum is
    defined for every array. *)
Lemma pairwise_sum_fuel (f1 f2 : nat) (a : list F) :
  (length a <= f1)%nat -> (length a <= f2)%nat ->
  pairwise_sum f1 a = pairwise_sum f2 a.
Proof.
  revert f2 a. induction f1 as [| f1 IH]; intros f2 a H1 H2;
    rewrite (pairwise_sum_eq _ a), (pairwise_sum_eq f2 a);
    destruct (Nat.ltb_spec (length a) 8) as [| H8]; try reflexivity;
    destruct (Nat.leb_spec (length a) 128) as [| H128]; try reflexivity.
  - lia.
  - destruct f2 as [| f2]; [lia |].
    pose proof (pairwise_cut (length a) H128) as Hcut.
    cbv zeta. f_equal; apply IH;
      rewrite ?length_firstn, ?length_skipn; lia.
Qed.


(** Eight elements are added two by two. *)
Lemma np_sum_eight (a0 a1 a2 a3 a4 a5 a6 a7 : F) :
  np_sum [a0; a1; a2; a3; a4; a5; a6; a7]
  = fadd (fadd (fadd a0 a1) (fadd a2 a3)) (fadd (fadd a4 a5) (fadd a6 a7)).
Proof. reflexivity. Qed.

Section SumClosed.

(** A property of [0.] that [+] keeps holds of every sum. *)
Variable P : F -> Prop.
Hypothesis P_zero : P fzero.
Hypothesis P_add : forall x y, P x -> P y -> P (fadd x y).

Lemma accumulate_closed (l : list F) (res : F) :
  P res -> Forall P l -> P (accumulate res l).
Proof.
  unfold accumulate. revert res.
  induction l as [| x l IH]; intros res Hres Hl; simpl.
  - exact Hres.
  - inversion Hl; subst. apply IH; auto.
Qed.

Lemma firstn_closed (n : nat) (l : list F) :
  Forall P l -> Forall P (firstn n l).
Proof.
  revert n. induction l as [| x l IH]; intros [| n] Hl; simpl;
    try constructor; inversion Hl; subst; auto.
Qed.

Lemma skipn_closed (n : nat) (l : list F) :
  Forall P l -> Forall P (skipn n l).
Proof.
  revert n. induction l as [| x l IH]; intros [| n] Hl; simpl;
    try assumption; inversion Hl; subst; auto.
Qed.

Lemma add8_closed (r b : list F) :
  Forall P r -> Forall P b -> Forall P (add8 r b).
Proof.
  unfold add8. revert b.
  induction r as [| x r IH]; intros [| y b] Hr Hb; simpl;
    try constructor; inversion Hr; inversion Hb; subst; auto.
Qed.

Lemma add_blocks_closed (fuel : nat) (r l : list F) :
  Forall P r -> Forall P l ->
  Forall P (fst (add_blocks fuel r l)) /\ Forall P (snd (add_blocks fuel r l)).
Proof.
  revert r l. induction fuel as [| fuel IH]; intros r l Hr Hl;
    cbn [add_blocks].
  - now split.
  - destruct (8 <=? length l)%nat; [| now split].
    apply IH.
    + apply add8_closed; [exact Hr | now apply firstn_closed].
    + now apply skipn_closed.
Qed.

Lemma sum8_closed (r : list F) : Forall P r -> P (sum8 r).
Proof.
  intros Hr. unfold sum8.
  repeat (destruct r as [| ? r]; [exact P_zero |]).
  destruct r; [| exact P_zero].
  repeat match goal with
         | X : Forall P (_ :: _) |- _ => inversion X; clear X; subst
         end.
  auto 10.
Qed.

Lemma pairwise_sum_closed (fuel : nat) (a : list F) :
  Forall P a -> P (pairwise_sum fuel a).
Proof.
  revert a. induction fuel as [| fuel IH]; intros a Ha;
    rewrite pairwise_sum_eq;
    (destruct (length a <? 8)%nat;
     [destruct a as [| x rest];
      [exact P_zero
      | inversion Ha; subst; now apply accumulate_closed] |]);
    (destruct (length a <=? 128)%nat;
     [destruct (add_blocks (length a) (firstn 8 a) (skipn 8 a))
        as [r rest] eqn:E;
      pose proof (add_blocks_closed (length a) (firstn 8 a) (skipn 8 a)
                    (firstn_closed 8 a Ha) (skipn_closed 8 a Ha)) as [Hr Hrest];
      rewrite E in Hr, Hrest;
      apply accumulate_closed; [now apply sum8_closed | exact Hrest] |]).
  - exact P_zero.
  - cbv zeta. apply P_add; apply IH;
      [now apply firstn_closed | now apply skipn_closed].
Qed.

Lemma np_sum_closed (v : list F) : Forall P v -> P (np_sum v).
Proof. apply pairwise_sum_closed. Qed.

End SumClosed.

(** *** The array that [compute_kinetic_energy] sums *)







End EnergyFacts.

Section EnergyErrors.

Import Energy.
Context {F : Type} `{Arith F}.

Lemma compute_energy_eq (pos vel : list (list F)) (mass : list F) (G U K : F) :
  compute_potential_energy pos mass G = Ok U ->
  compute_kinetic_energy vel mass = Ok K ->
  compute_energy pos vel mass G = Ok (fadd U K).
Proof.
  intros HU HK. unfold compute_energy. rewrite HU. cbn [bind].
  rewrite HK. reflexivity.
Qed.

(** C6. Additivity of the total energy: on arrays of equal length both
    energies are defined, and [compute_energy] returns their sum, the
    potential energy first, with nothing else added. *)
Theorem compute_energy_additive
  (d d' : nat) (pos vel : list (list F)) (mass : list F) (G : F) :
  array_of_dim d pos -> array_of_dim d' vel ->
  length pos = length mass -> length vel = length mass ->
  exists U K,
    compute_potential_energy pos mass G = Ok U
    /\ compute_kinetic_energy vel mass = Ok K
    /\ compute_energy pos vel mass G = Ok (fadd U K).
Proof.
  intros Hpos Hvel Hlp Hlv.
  apply array_of_dim_rectangular in Hpos, Hvel.
  eexists; eexists. split; [| split].
  - apply compute_potential_energy_loop; [exact Hpos | now symmetry].
  - apply compute_kinetic_energy_value; [exact Hvel | now symmetry].
  - apply compute_energy_eq.
    + apply compute_potential_energy_loop; [exact Hpos | now symmetry].
    + apply compute_kinetic_energy_value; [exact Hvel | now symmetry].
Qed.

(** C7. The shape check: on arrays of vectors, [compute_kinetic_energy]
    and [compute_potential_energy] raise the assertion error exactly when
    [mass] is not as long as the array, and return a value exactly when it
    is; [compute_energy] raises it exactly when the three lengths are not
    all equal, and returns a value exactly when they are. *)
Theorem shape_mismatch_iff
  (d d' : nat) (pos vel : list (list F)) (mass : list F) (G : F) :
  array_of_dim d pos -> array_of_dim d' vel ->
  ((exists msg, compute_kinetic_energy vel mass = Raise (AssertionError msg))
     <-> length mass <> length vel)
  /\ ((exists K, compute_kinetic_energy vel mass = Ok K)
     <-> length mass = length vel)
  /\ ((exists msg, compute_potential_energy pos mass G = Raise (AssertionError msg))
     <-> length mass <> length pos)
  /\ ((exists U, compute_potential_energy pos mass G = Ok U)
     <-> length mass = length pos)
  /\ ((exists msg, compute_energy pos vel mass G = Raise (AssertionError msg))
     <-> ~ (length pos = length mass /\ length vel = length mass))
  /\ ((exists E, compute_energy pos vel mass G = Ok E)
     <-> (length pos = length mass /\ length vel = length mass)).
Proof.
  intros Hpos Hvel.
  apply array_of_dim_rectangular in Hpos, Hvel.
  pose proof (compute_kinetic_energy_value vel mass Hvel) as HKok.
  pose proof (compute_kinetic_energy_mismatch vel mass Hvel) as HKerr.
  pose proof (compute_potential_energy_loop pos mass G Hpos) as HUok.
  pose proof (compute_potential_energy_mismatch pos mass G Hpos) as HUerr.
  destruct (Nat.eq_dec (length mass) (length vel)) as [Ev | Nv];
    destruct (Nat.eq_dec (length mass) (length pos)) as [Ep | Np];
    try specialize (HKok Ev); try specialize (HKerr Nv);
    try specialize (HUok Ep); try specialize (HUerr Np);
    unfold compute_energy;
    repeat match goal with
      | E : _ = Ok _ |- _ => rewrite E; clear E
      | E : _ = Raise _ |- _ => rewrite E; clear E
      end;
    cbn [bind];
    repeat split;
    repeat match goal with
      | |- _ -> _ => intro
      | X : exists _, _ |- _ => destruct X
      | X : _ /\ _ |- _ => destruct X
      | X : Ok _ = Raise _ |- _ => discriminate X
      | X : Raise _ = Ok _ |- _ => discriminate X
      | |- exists _, Ok _ = Ok _ => eexists; reflexivity
      | |- exists _, Raise _ = Raise _ => eexists; reflexivity
      end;
    try congruence; try lia.
Qed.

End EnergyErrors.

(** ** The energy evaluator, in binary64 *)

Section Float64Facts.

Import Energy Float64.
Local Open Scope float_scope.

Lemma not_finite_spec (x : float) :
  not_finite x = sf_not_finite (Prim2SF x).
Proof.
  unfold not_finite, is_nan, is_infinity.
  rewrite !eqb_spec, abs_spec.
  change (Prim2SF infinity) with (S754_infinity false).
  destruct (Prim2SF x) as [s | s | | s m e]; try reflexivity.
  - now destruct s.
  - unfold SFeqb, SFcompare, SFabs.
    change (Pos.compare_cont Eq m m) with (Pos.compare m m).
    destruct s; now rewrite Z.compare_refl, Pos.compare_refl.
Qed.

Lemma is_zero_spec (x : float) :
  sf_zero_or_nan (Prim2SF x) = true -> is_zero x = true \/ is_nan x = true.
Proof.
  unfold is_zero, is_nan. rewrite !eqb_spec.
  change (Prim2SF zero) with (S754_zero false).
  destruct (Prim2SF x) as [s | s | | s m e]; try discriminate; intros _.
  - now left.
  - now right.
Qed.

Lemma pzero_or_nan_zero_or_nan (x : spec_float) :
  sf_pzero_or_nan x = true -> sf_zero_or_nan x = true.
Proof. now destruct x as [[|] | | |]. Qed.

Lemma SFeqb_refl (x : spec_float) : x <> S754_nan -> SFeqb x x = true.
Proof.
  destruct x as [b | b | | b m e]; intros Hx;
    try contradiction; try (now destruct b).
  unfold SFeqb, SFcompare.
  change (Pos.compare_cont Eq m m) with (Pos.compare m m).
  destruct b; now rewrite Z.compare_refl, Pos.compare_refl.
Qed.

(** [x - y] for [x == y]: a zero, or a NaN when both are one infinity. *)
Lemma sub_of_equal (x y : float) :
  (x =? y) = true -> sf_zero_or_nan (Prim2SF (x - y)) = true.
Proof.
  rewrite eqb_spec, sub_spec.
  destruct (Prim2SF x) as [sx | sx | | sx mx ex],
           (Prim2SF y) as [sy | sy | | sy my ey];
    unfold SFeqb, SFcompare; intros Heq;
    try discriminate Heq;
    try (now destruct sx, sy);
    try (now destruct sx);
    try (now destruct sy).
  assert (E : sx = sy /\ ex = ey /\ mx = my).
  { change (Pos.compare_cont Eq mx my) with (Pos.compare mx my) in Heq.
    destruct sx, sy; try discriminate Heq;
      destruct (Z.compare_spec ex ey); try discriminate Heq;
      destruct (Pos.compare_spec mx my); try discriminate Heq;
      now subst. }
  destruct E as [-> [-> ->]].
  cbv beta iota zeta delta [SF64sub SFsub].
  now rewrite Z.sub_diag.
Qed.

Lemma sub_of_same (x y : float) :
  x = y \/ (x =? y) = true -> sf_zero_or_nan (Prim2SF (x - y)) = true.
Proof.
  intros [<- | Heq]; [| now apply sub_of_equal].
  destruct (Prim2SF x) as [s | s | | s m e] eqn:E;
    try (apply sub_of_equal; rewrite eqb_spec, E; apply SFeqb_refl;
         discriminate).
  now rewrite sub_spec, E.
Qed.

Lemma mul_self_zero_or_nan (x : float) :
  sf_zero_or_nan (Prim2SF x) = true -> sf_pzero_or_nan (Prim2SF (x * x)) = true.
Proof.
  rewrite mul_spec.
  destruct (Prim2SF x) as [[|] | | |]; try discriminate; reflexivity.
Qed.

Lemma add_pzero_or_nan (x y : float) :
  sf_pzero_or_nan (Prim2SF x) = true -> sf_pzero_or_nan (Prim2SF y) = true ->
  sf_pzero_or_nan (Prim2SF (x + y)) = true.
Proof.
  rewrite add_spec.
  destruct (Prim2SF x) as [[|] | | |]; try discriminate;
    destruct (Prim2SF y) as [[|] | | |]; try discriminate; reflexivity.
Qed.

Lemma sqrt_pzero_or_nan (x : float) :
  sf_pzero_or_nan (Prim2SF x) = true ->
  sf_pzero_or_nan (Prim2SF (PrimFloat.sqrt x)) = true.
Proof.
  rewrite sqrt_spec.
  destruct (Prim2SF x) as [[|] | | |]; try discriminate; reflexivity.
Qed.

(** Dividing by zero, or by a NaN, gives an infinity or a NaN. *)
Lemma div_by_zero_not_finite (x r : float) :
  sf_zero_or_nan (Prim2SF r) = true -> sf_not_finite (Prim2SF (x / r)) = true.
Proof.
  rewrite div_spec.
  destruct (Prim2SF r) as [sr | | |]; try discriminate;
    destruct (Prim2SF x) as [sx | sx | | sx mx ex]; reflexivity.
Qed.

Lemma sub_not_finite_r (u t : float) :
  sf_not_finite (Prim2SF t) = true -> sf_not_finite (Prim2SF (u - t)) = true.
Proof.
  rewrite sub_spec.
  destruct (Prim2SF t) as [| st | |]; try discriminate;
    destruct (Prim2SF u) as [su | su | | su mu eu]; intros _;
    try reflexivity; now destruct su, st.
Qed.

Lemma sub_not_finite_l (u t : float) :
  sf_not_finite (Prim2SF u) = true -> sf_not_finite (Prim2SF (u - t)) = true.
Proof.
  rewrite sub_spec.
  destruct (Prim2SF u) as [| su | |]; try discriminate;
    destruct (Prim2SF t) as [st | st | | st mt et]; intros _;
    try reflexivity; now destruct su, st.
Qed.

Lemma np_sum_pzero_or_nan (v : list float) :
  Forall (fun x => sf_pzero_or_nan (Prim2SF x) = true) v ->
  sf_pzero_or_nan (Prim2SF (np_sum v)) = true.
Proof.
  apply (np_sum_closed (fun x => sf_pzero_or_nan (Prim2SF x) = true)).
  - reflexivity.
  - apply add_pzero_or_nan.
Qed.

Lemma vsquare_vsub_equal (u v : list float) :
  rows_equal u v ->
  Forall (fun x => sf_pzero_or_nan (Prim2SF x) = true) (vsquare (vsub u v)).
Proof.
  induction 1 as [| x y u v Hxy _ IH]; simpl; constructor.
  - apply mul_self_zero_or_nan. now apply sub_of_same.
  - exact IH.
Qed.

(** The distance between two rows that are equal is zero, or a NaN. *)
Lemma loop_distance_equal (pos : list (list float)) (i j : nat) :
  rows_equal (nth i pos []) (nth j pos []) ->
  sf_pzero_or_nan (Prim2SF (loop_distance pos i j)) = true.
Proof.
  intros Heq. unfold loop_distance.
  apply sqrt_pzero_or_nan, np_sum_pzero_or_nan, vsquare_vsub_equal, Heq.
Qed.

(** Once the accumulated energy is an infinity or a NaN, it stays one. *)
Lemma fold_left_not_finite (f : nat * nat -> float) (l : list (nat * nat))
  (a : float) :
  sf_not_finite (Prim2SF a) = true ->
  sf_not_finite (Prim2SF (fold_left (fun U p => fsub U (f p)) l a)) = true.
Proof.
  revert a. induction l as [| p l IH]; intros a Ha; simpl.
  - exact Ha.
  - apply IH. now apply sub_not_finite_l.
Qed.

(** C8. Coincident particles are not guarded: when the positions of two
    particles [i < j] are equal, the loops do reach the pair, the distance
    computed for it is zero (or a NaN, for equal infinite coordinates), the
    term divided by it is an infinity or a NaN, and so is the energy that
    [compute_potential_energy] returns.  Two unit masses at one point give
    minus infinity, a zero mass and a unit mass give a NaN. *)
Theorem coincident_particles_unguarded
  (d : nat) (pos : list (list float)) (mass : list float) (G : float)
  (i j : nat) :
  array_of_dim d pos -> length mass = length pos ->
  (i < j < length pos)%nat ->
  rows_equal (nth i pos []) (nth j pos []) ->
  In (i, j) (index_pairs (length pos))
  /\ (is_zero (loop_distance pos i j) = true
      \/ is_nan (loop_distance pos i j) = true)
  /\ not_finite (loop_term pos mass G (i, j)) = true
  /\ (exists U, compute_potential_energy pos mass G = Ok U
                /\ not_finite U = true)
  /\ compute_potential_energy [[0; 0; 0]; [0; 0; 0]] [1; 1] 1 = Ok neg_infinity
  /\ compute_potential_energy [[0; 0; 0]; [0; 0; 0]] [0; 1] 1 = Ok nan.
Proof.
  intros Hd Hlen Hij Heq.
  pose proof (loop_distance_equal pos i j Heq) as Hr.
  assert (Hin : In (i, j) (index_pairs (length pos)))
    by now apply in_index_pairs.
  assert (Hterm : sf_not_finite (Prim2SF (loop_term pos mass G (i, j))) = true).
  { unfold loop_term. cbn [fst snd].
    apply div_by_zero_not_finite, pzero_or_nan_zero_or_nan, Hr. }
  split; [exact Hin |].
  split; [apply is_zero_spec, pzero_or_nan_zero_or_nan, Hr |].
  split; [now rewrite not_finite_spec |].
  split; [| split; reflexivity].
  eexists. split.
  - apply compute_potential_energy_loop; [| exact Hlen].
    now apply (array_of_dim_rectangular d).
  - rewrite not_finite_spec.
    destruct (in_split _ _ Hin) as [l1 [l2 ->]].
    rewrite fold_left_app. cbn [fold_left].
    apply fold_left_not_finite. now apply sub_not_finite_r.
Qed.

Lemma coincident_particles_unguarded_witness :
  In (0%nat, 1%nat) (index_pairs 2)
  /\ (is_zero (loop_distance [[1; 2; 3]; [1; 2; 3]] 0 1) = true
      \/ is_nan (loop_distance [[1; 2; 3]; [1; 2; 3]] 0 1) = true)
  /\ not_finite (loop_term [[1; 2; 3]; [1; 2; 3]] [5; 7] G_default (0%nat, 1%nat))
     = true
  /\ (exists U,
        compute_potential_energy [[1; 2; 3]; [1; 2; 3]] [5; 7] G_default = Ok U
        /\ not_finite U = true)
  /\ compute_potential_energy [[0; 0; 0]; [0; 0; 0]] [1; 1] 1 = Ok neg_infinity
  /\ compute_potential_energy [[0; 0; 0]; [0; 0; 0]] [0; 1] 1 = Ok nan.
Proof.
  apply (coincident_particles_unguarded 3 [[1; 2; 3]; [1; 2; 3]] [5; 7]
           G_default 0 1).
  - repeat constructor.
  - reflexivity.
  - simpl. lia.
  - repeat constructor.
Defined.

(** *** The accumulation [U -= t] against the sum of the terms *)

(** Rounding does not depend on the sign. *)
Lemma binary_round_aux_opp (prec emax : Z) (sx : bool) (mx ex : Z)
  (lx : location) :
  binary_round_aux prec emax (negb sx) mx ex lx
  = SFopp (binary_round_aux prec emax sx mx ex lx).
Proof.
  unfold binary_round_aux.
  destruct (shr_fexp prec emax mx ex lx) as [mrs' e'].
  destruct (shr_fexp prec emax _ e' loc_Exact) as [mrs'' e''].
  destruct (shr_m mrs'') as [| m | m]; try reflexivity.
  now destruct (Z.leb e'' (emax - prec)).
Qed.

Lemma binary_normalize_opp (prec emax : Z) (z e : Z) :
  z <> 0%Z ->
  binary_normalize prec emax (- z) e false
  = SFopp (binary_normalize prec emax z e false).
Proof.
  intros Hz. destruct z as [| p | p]; [contradiction | |];
    cbn [Z.opp binary_normalize]; unfold binary_round;
    destruct (shl_align p e _) as [mz ez].
  - apply (binary_round_aux_opp prec emax false).
  - apply (binary_round_aux_opp prec emax true).
Qed.

Lemma sf_opposite_step (u s t : spec_float) :
  sf_opposite u s -> sf_opposite (SF64sub u t) (SF64add s t).
Proof.
  intros [-> | [Hu Hs]].
  - destruct s as [b | b | | b m e], t as [c | c | | c m2 e2];
      try (left; reflexivity);
      try (destruct b, c; (left; reflexivity) || (right; now split)).
    cbn [SFopp].
    cbv beta iota zeta delta [SF64sub SF64add SFsub SFadd].
    set (ez := Z.min e e2).
    set (M1 := Zpos (fst (shl_align m e ez))).
    set (M2 := Zpos (fst (shl_align m2 e2 ez))).
    replace (cond_Zopp (negb b) M1 - cond_Zopp c M2)%Z
      with (- (cond_Zopp b M1 + cond_Zopp c M2))%Z
      by (destruct b, c; unfold cond_Zopp; cbn [negb]; lia).
    destruct (Z.eq_dec (cond_Zopp b M1 + cond_Zopp c M2) 0) as [E | NE].
    + rewrite E. right. now split.
    + left. now apply binary_normalize_opp.
  - destruct u as [a | | |]; try discriminate Hu.
    destruct s as [b | | |]; try discriminate Hs.
    destruct t as [c | c | | c m2 e2];
      try (left; reflexivity);
      destruct a, b, c; (left; reflexivity) || (right; now split).
Qed.




End Float64Facts.

(** ** The formulas of the two energies, in binary64 *)

Section EnergyFormulas.

Import Energy Float64.
Local Open Scope float_scope.






(** The scenarios of the specification. *)
Example two_particles_at_rest :
  compute_potential_energy
    [[0; 0; 0]; [1; 0; 0]]%float [1; 1]%float 1%float = Ok (-1)%float
  /\ compute_kinetic_energy
       [[0; 0; 0]; [0; 0; 0]]%float [1; 1]%float = Ok 0%float
  /\ compute_energy [[0; 0; 0]; [1; 0; 0]]%float [[0; 0; 0]; [0; 0; 0]]%float
       [1; 1]%float 1%float = Ok (-1)%float.
Proof. repeat split. Qed.

Example one_particle :
  compute_kinetic_energy [[3; 4; 0]]%float [2%float] = Ok 25%float
  /\ compute_potential_energy [[7; 8; 9]]%float [2%float] G_default
     = Ok 0%float.
Proof. repeat split. Qed.

Example two_particles_moving :
  compute_kinetic_energy [[1; 2; 3]; [4; 5; 6]]%float [2; 3]%float
  = Ok 129.5%float.
Proof. reflexivity. Qed.

Example three_particles :
  compute_potential_energy
    [[0; 0; 0]; [3; 4; 0]; [0; 0; 12]]%float [5; 13; 12]%float 1%float
  = Ok (-30)%float.
Proof. reflexivity. Qed.

Example no_particle :
  compute_kinetic_energy (F := float) [] [] = Ok 0%float
  /\ compute_potential_energy (F := float) [] [] G_default = Ok 0%float
  /\ compute_energy (F := float) [] [] [] G_default = Ok 0%float.
Proof. repeat split. Qed.

Lemma compute_energy_additive_witness :
  exists U K,
    compute_potential_energy
      [[0; 0; 0]; [1; 0; 0]]%float [1; 1]%float 1%float = Ok U
    /\ compute_kinetic_energy [[0; 3; 4]; [0; 0; 0]]%float [1; 1]%float = Ok K
    /\ compute_energy [[0; 0; 0]; [1; 0; 0]]%float [[0; 3; 4]; [0; 0; 0]]%float
         [1; 1]%float 1%float = Ok (PrimFloat.add U K).
Proof.
  apply (@compute_energy_additive float Float64.arith 3 3).
  - repeat constructor.
  - repeat constructor.
  - reflexivity.
  - reflexivity.
Defined.

Lemma shape_mismatch_iff_witness :
  ((exists msg,
       compute_kinetic_energy [[0; 3; 4]; [0; 0; 0]]%float [1%float]
       = Raise (AssertionError msg))
     <-> 1%nat <> 2%nat)
  /\ ((exists K,
         compute_kinetic_energy [[0; 3; 4]; [0; 0; 0]]%float [1%float] = Ok K)
     <-> 1%nat = 2%nat)
  /\ ((exists msg,
         compute_potential_energy [[0; 0; 0]]%float [1%float] 1%float
         = Raise (AssertionError msg))
     <-> 1%nat <> 1%nat)
  /\ ((exists U,
         compute_potential_energy [[0; 0; 0]]%float [1%float] 1%float = Ok U)
     <-> 1%nat = 1%nat)
  /\ ((exists msg,
         compute_energy [[0; 0; 0]]%float [[0; 3; 4]; [0; 0; 0]]%float
           [1%float] 1%float = Raise (AssertionError msg))
     <-> ~ (1%nat = 1%nat /\ 2%nat = 1%nat))
  /\ ((exists E,
         compute_energy [[0; 0; 0]]%float [[0; 3; 4]; [0; 0; 0]]%float
           [1%float] 1%float = Ok E)
     <-> (1%nat = 1%nat /\ 2%nat = 1%nat)).
Proof.
  apply (@shape_mismatch_iff float Float64.arith 3 3
           [[0; 0; 0]]%float [[0; 3; 4]; [0; 0; 0]]%float [1%float] 1%float).
  - repeat constructor.
  - repeat constructor.
Defined.

End EnergyFormulas.

(** * Further properties *)

(** ** The partitioner: errors, bounds and slices *)

Section PartitionerMore.

Import Partitioner Slicing.
Local Open Scope Z_scope.

(** X1. [split_size] raises [ZeroDivisionError] exactly when [N_chunks] is
    zero; for every other [N_chunks], negative ones and any index included,
    it returns a value. *)
Theorem split_size_raises_iff (N_parts N_chunks i : Z) :
  (split_size N_parts N_chunks i = Raise ZeroDivisionError <-> N_chunks = 0)
  /\ ((exists n, split_size N_parts N_chunks i = Ok n) <-> N_chunks <> 0)
  /\ (forall e, split_size N_parts N_chunks i = Raise e -> e = ZeroDivisionError).
Proof.
  destruct (Z.eq_dec N_chunks 0) as [-> | Hc].
  - rewrite split_size_zero_chunks. split; [tauto | split].
    + split; [intros [n Hn]; discriminate Hn | intros Hc; now contradiction Hc].
    + intros e He. now inversion He.
  - rewrite split_size_eq by assumption. split; [| split].
    + split; [intros He; discriminate He | intros E; contradiction].
    + split; [intros _; exact Hc | intros _; eexists; reflexivity].
    + intros e He. discriminate He.
Qed.

(** X2. For [N_parts >= 0], [N_chunks >= 1] and an index [i >= 0] the size
    of a chunk lies between [0] and [N_parts]. *)
Theorem split_size_bounds (N_parts N_chunks i : Z) :
  0 <= N_parts -> 1 <= N_chunks -> 0 <= i ->
  exists n, split_size N_parts N_chunks i = Ok n /\ 0 <= n <= N_parts.
Proof.
  intros HN Hc Hi. rewrite split_size_eq by lia.
  eexists. split; [reflexivity |].
  pose proof (Z.mod_pos_bound N_parts N_chunks ltac:(lia)) as Hr.
  pose proof (Z.div_mod N_parts N_chunks ltac:(lia)) as Hd.
  assert (Hq : 0 <= N_parts / N_chunks) by (apply Z.div_pos; lia).
  destruct (Z.gtb_spec (N_parts mod N_chunks) i); cbn [Z.b2z]; nia.
Qed.

Lemma split_size_bounds_witness :
  exists n, split_size 1000 11 4 = Ok n /\ 0 <= n <= 1000.
Proof. apply (split_size_bounds 1000 11 4); lia. Defined.

Lemma chunk_start_eq (N_parts N_chunks k : Z) :
  1 <= N_chunks -> 0 <= k ->
  chunk_start N_parts N_chunks k
  = Ok (k * (N_parts / N_chunks) + Z.min k (N_parts mod N_chunks)).
Proof.
  intros Hc Hk. unfold chunk_start.
  rewrite (mapM_total _
             (fun i => N_parts / N_chunks + Z.b2z (N_parts mod N_chunks >? i)))
    by (intros i _; apply split_size_eq; lia).
  cbn [bind]. f_equal. unfold zrange, range. rewrite Nat.sub_0_r.
  rewrite sum_first_chunks by (apply Z.mod_pos_bound; lia).
  rewrite Z2Nat.id by lia. lia.
Qed.

(** X3. The start of a chunk: for [N_chunks >= 1] and [0 <= k] the sizes of
    the chunks before [k] add up to [k * q + min(k, r)], with [q] and [r]
    the quotient and the remainder of [N_parts] by [N_chunks]; the first
    chunk starts at [0], every chunk starts where the one before it ends,
    and the chunk after the last would start at [N_parts]. *)
Theorem chunk_start_formula (N_parts N_chunks k : Z) :
  0 <= N_parts -> 1 <= N_chunks -> 0 <= k ->
  chunk_start N_parts N_chunks k
  = Ok (k * (N_parts / N_chunks) + Z.min k (N_parts mod N_chunks))
  /\ chunk_start N_parts N_chunks 0 = Ok 0
  /\ chunk_start N_parts N_chunks N_chunks = Ok N_parts
  /\ (exists s n s',
        chunk_start N_parts N_chunks k = Ok s
        /\ split_size N_parts N_chunks k = Ok n
        /\ chunk_start N_parts N_chunks (k + 1) = Ok s'
        /\ s' = s + n).
Proof.
  intros HN Hc Hk.
  pose proof (Z.mod_pos_bound N_parts N_chunks ltac:(lia)) as Hr.
  pose proof (Z.div_mod N_parts N_chunks ltac:(lia)) as Hd.
  rewrite !chunk_start_eq by lia.
  split; [reflexivity | split; [f_equal; lia | split; [f_equal; lia |]]].
  rewrite split_size_eq by lia.
  do 3 eexists. repeat (split; [reflexivity |]).
  destruct (Z.gtb_spec (N_parts mod N_chunks) k); cbn [Z.b2z]; lia.
Qed.

Lemma chunk_start_formula_witness :
  chunk_start 1000 11 10 = Ok (10 * (1000 / 11) + Z.min 10 (1000 mod 11))
  /\ chunk_start 1000 11 0 = Ok 0
  /\ chunk_start 1000 11 11 = Ok 1000
  /\ (exists s n s',
        chunk_start 1000 11 10 = Ok s
        /\ split_size 1000 11 10 = Ok n
        /\ chunk_start 1000 11 (10 + 1) = Ok s'
        /\ s' = s + n).
Proof. apply (chunk_start_formula 1000 11 10); lia. Defined.

(** A value between the first and the last term of a sequence lies
    between two consecutive terms. *)
Lemma between_consecutive (s : Z -> Z) (p : Z) (n : nat) :
  s 0 <= p < s (Z.of_nat n) ->
  exists k, 0 <= k < Z.of_nat n /\ s k <= p < s (k + 1).
Proof.
  induction n as [| n IH]; intros Hp.
  - simpl in Hp. lia.
  - rewrite Nat2Z.inj_succ in *.
    destruct (Z_lt_le_dec p (s (Z.of_nat n))) as [Hlt | Hge].
    + destruct IH as [k [Hk Hs]]; [lia |]. exists k. split; [lia | exact Hs].
    + exists (Z.of_nat n). split; [lia |].
      replace (Z.of_nat n + 1) with (Z.succ (Z.of_nat n)) by lia. lia.
Qed.

(** X4. The chunks tile the particles: for [N_parts >= 0] and
    [N_chunks >= 1], every particle index [0 <= p < N_parts] lies in the
    slice of one chunk [0 <= k < N_chunks], and of no other. *)
Theorem chunks_tile (N_parts N_chunks p : Z) :
  0 <= N_parts -> 1 <= N_chunks -> 0 <= p < N_parts ->
  exists k,
    0 <= k < N_chunks
    /\ owns N_parts N_chunks k p
    /\ (forall k', 0 <= k' < N_chunks -> owns N_parts N_chunks k' p -> k' = k).
Proof.
  intros HN Hc Hp.
  pose proof (Z.mod_pos_bound N_parts N_chunks ltac:(lia)) as Hr.
  pose proof (Z.div_mod N_parts N_chunks ltac:(lia)) as Hd.
  assert (Hq : 0 <= N_parts / N_chunks) by (apply Z.div_pos; lia).
  set (q := N_parts / N_chunks) in *. set (r := N_parts mod N_chunks) in *.
  set (s := fun k => k * q + Z.min k r).
  assert (Hstep : forall k, 0 <= k -> s (k + 1) = s k + (q + Z.b2z (r >? k))).
  { intros k Hk. unfold s.
    destruct (Z.gtb_spec r k); cbn [Z.b2z]; lia. }
  assert (Hmono : forall k1 k2, 0 <= k1 <= k2 -> s k1 <= s k2).
  { intros k1 k2 Hk. unfold s.
    assert (k1 * q <= k2 * q) by (apply Z.mul_le_mono_nonneg_r; lia). lia. }
  assert (Howns : forall k, 0 <= k < N_chunks ->
            (owns N_parts N_chunks k p <-> s k <= p < s (k + 1))).
  { intros k Hk. unfold owns.
    rewrite chunk_start_eq, split_size_eq by lia. fold q r.
    rewrite Hstep by lia. split.
    - intros [s0 [n [Hs [Hn Hin]]]].
      injection Hs as <-. injection Hn as <-. exact Hin.
    - intros Hin. do 2 eexists. repeat (split; [reflexivity |]). exact Hin. }
  destruct (between_consecutive s p (Z.to_nat N_chunks)) as [k [Hk Hin]].
  { rewrite Z2Nat.id by lia. unfold s. lia. }
  rewrite Z2Nat.id in Hk by lia.
  exists k. split; [exact Hk | split; [now apply Howns |]].
  intros k' Hk' Hin'. apply Howns in Hin'; [| exact Hk'].
  destruct (Z.lt_trichotomy k' k) as [Hlt | [Heq | Hgt]]; [| exact Heq |].
  - pose proof (Hmono (k' + 1) k ltac:(lia)). lia.
  - pose proof (Hmono (k + 1) k' ltac:(lia)). lia.
Qed.

Lemma chunks_tile_witness :
  exists k,
    0 <= k < 11
    /\ owns 1000 11 k 999
    /\ (forall k', 0 <= k' < 11 -> owns 1000 11 k' 999 -> k' = k).
Proof. apply (chunks_tile 1000 11 999); lia. Defined.

(** X5. More chunks than particles: for [0 <= N_parts < N_chunks] the
    chunks [0 .. N_parts - 1] get one particle each and every later chunk
    gets none. *)
Theorem split_size_few_particles (N_parts N_chunks i : Z) :
  0 <= N_parts < N_chunks -> 0 <= i ->
  split_size N_parts N_chunks i = Ok (if i <? N_parts then 1 else 0).
Proof.
  intros HN Hi. rewrite split_size_eq by lia.
  rewrite Z.div_small, Z.mod_small by lia.
  destruct (Z.gtb_spec N_parts i), (Z.ltb_spec i N_parts);
    cbn [Z.b2z]; (reflexivity || lia).
Qed.

Lemma split_size_few_particles_witness :
  split_size 3 8 2 = Ok (if 2 <? 3 then 1 else 0).
Proof. apply (split_size_few_particles 3 8 2); lia. Defined.

(** X6. One more particle goes to the chunk whose index is the old
    remainder and changes no other chunk; [N_chunks] more particles add one
    to every chunk. *)
Theorem split_size_increment (N_parts N_chunks i : Z) :
  0 <= N_parts -> 1 <= N_chunks -> 0 <= i < N_chunks ->
  exists n,
    split_size N_parts N_chunks i = Ok n
    /\ split_size (N_parts + 1) N_chunks i
       = Ok (n + Z.b2z (i =? N_parts mod N_chunks))
    /\ split_size (N_parts + N_chunks) N_chunks i = Ok (n + 1).
Proof.
  intros HN Hc Hi.
  pose proof (Z.mod_pos_bound N_parts N_chunks ltac:(lia)) as Hr.
  pose proof (Z.div_mod N_parts N_chunks ltac:(lia)) as Hd.
  rewrite !split_size_eq by lia.
  eexists. split; [reflexivity | split].
  - remember (N_parts / N_chunks) as q eqn:Eq.
    remember (N_parts mod N_chunks) as r eqn:Er.
    destruct (Z_lt_le_dec (r + 1) N_chunks) as [Hlt | Hge].
    + rewrite <- (Z.div_unique_pos (N_parts + 1) N_chunks q (r + 1)) by lia.
      rewrite <- (Z.mod_unique_pos (N_parts + 1) N_chunks q (r + 1)) by lia.
      f_equal.
      destruct (Z.gtb_spec (r + 1) i), (Z.gtb_spec r i), (Z.eqb_spec i r);
        cbn [Z.b2z]; lia.
    + rewrite <- (Z.div_unique_pos (N_parts + 1) N_chunks (q + 1) 0) by lia.
      rewrite <- (Z.mod_unique_pos (N_parts + 1) N_chunks (q + 1) 0) by lia.
      f_equal.
      destruct (Z.gtb_spec 0 i), (Z.gtb_spec r i), (Z.eqb_spec i r);
        cbn [Z.b2z]; lia.
  - replace (N_parts + N_chunks) with (N_parts + 1 * N_chunks) by lia.
    rewrite Z.div_add, Z.mod_add by lia. f_equal. lia.
Qed.

Lemma split_size_increment_witness :
  exists n,
    split_size 1000 11 10 = Ok n
    /\ split_size (1000 + 1) 11 10 = Ok (n + Z.b2z (10 =? 1000 mod 11))
    /\ split_size (1000 + 11) 11 10 = Ok (n + 1).
Proof. apply (split_size_increment 1000 11 10); lia. Defined.

(** X7. A negative chunk index is not counted from the end: for
    [N_chunks >= 1] it always gets the floor of [N_parts / N_chunks] plus
    one, whatever the remainder is. *)
Theorem split_size_negative_index (N_parts N_chunks i : Z) :
  1 <= N_chunks -> i < 0 ->
  split_size N_parts N_chunks i = Ok (N_parts / N_chunks + 1).
Proof.
  intros Hc Hi. rewrite split_size_eq by lia.
  pose proof (Z.mod_pos_bound N_parts N_chunks ltac:(lia)) as Hr.
  destruct (Z.gtb_spec (N_parts mod N_chunks) i); cbn [Z.b2z];
    [reflexivity | lia].
Qed.

Lemma split_size_negative_index_witness :
  split_size 1000 10 (-1) = Ok (1000 / 10 + 1).
Proof. apply (split_size_negative_index 1000 10 (-1)); lia. Defined.

End PartitionerMore.

(** ** The signs of the energies, in binary64 *)

Section Float64Signs.

Import Energy Float64 Signs.
Local Open Scope float_scope.

Lemma binary_round_aux_sign (prec emax : Z) (sx : bool) (mx ex : Z)
  (lx : location) :
  sf_sign_is sx (binary_round_aux prec emax sx mx ex lx) = true.
Proof.
  unfold binary_round_aux.
  destruct (shr_fexp prec emax mx ex lx) as [mrs' e'].
  destruct (shr_fexp prec emax _ e' loc_Exact) as [mrs'' e''].
  destruct (shr_m mrs'') as [| m | m]; cbn [sf_sign_is];
    try apply Bool.eqb_reflx; try reflexivity.
  destruct (Z.leb e'' (emax - prec)); apply Bool.eqb_reflx.
Qed.

Lemma binary_round_sign (prec emax : Z) (sx : bool) (mx : positive) (ex : Z) :
  sf_sign_is sx (binary_round prec emax sx mx ex) = true.
Proof.
  unfold binary_round. destruct (shl_align mx ex _) as [mz ez].
  apply binary_round_aux_sign.
Qed.

Lemma sign_false_not_negative (x : spec_float) :
  sf_sign_is false x = true -> sf_not_negative x = true.
Proof. now destruct x as [[|] | [|] | | [|] m e]. Qed.

Lemma sign_true_not_positive (x : spec_float) :
  sf_sign_is true x = true -> sf_not_positive x = true.
Proof. now destruct x as [[|] | [|] | | [|] m e]. Qed.

Lemma leb_zero_not_negative (m : float) :
  (0 <=? m) = true -> sf_not_negative (Prim2SF m) = true.
Proof.
  rewrite leb_spec. change (Prim2SF 0) with (S754_zero false).
  destruct (Prim2SF m) as [s | [|] | | [|] mm e]; now cbn.
Qed.

Lemma not_negative_ltb_zero (x : float) :
  sf_not_negative (Prim2SF x) = true -> (x <? 0) = false.
Proof.
  rewrite ltb_spec. change (Prim2SF 0) with (S754_zero false).
  destruct (Prim2SF x) as [s | [|] | | [|] m e]; now cbn.
Qed.

Lemma not_positive_ltb_zero (x : float) :
  sf_not_positive (Prim2SF x) = true -> (0 <? x) = false.
Proof.
  rewrite ltb_spec. change (Prim2SF 0) with (S754_zero false).
  destruct (Prim2SF x) as [s | [|] | | [|] m e]; now cbn.
Qed.

Lemma mul_self_not_negative (x : float) :
  sf_not_negative (Prim2SF (x * x)) = true.
Proof.
  rewrite mul_spec.
  destruct (Prim2SF x) as [s | [|] | | [|] m e]; try reflexivity;
    apply sign_false_not_negative, binary_round_aux_sign.
Qed.

Lemma mul_not_negative (x y : float) :
  sf_not_negative (Prim2SF x) = true -> sf_not_negative (Prim2SF y) = true ->
  sf_not_negative (Prim2SF (x * y)) = true.
Proof.
  rewrite mul_spec.
  destruct (Prim2SF x) as [sx | [|] | | [|] mx ex]; try discriminate;
    destruct (Prim2SF y) as [sy | [|] | | [|] my ey]; try discriminate;
    intros _ _; try reflexivity; try (now destruct sx); try (now destruct sy).
  apply sign_false_not_negative, binary_round_aux_sign.
Qed.

Lemma add_not_negative (x y : float) :
  sf_not_negative (Prim2SF x) = true -> sf_not_negative (Prim2SF y) = true ->
  sf_not_negative (Prim2SF (x + y)) = true.
Proof.
  rewrite add_spec.
  destruct (Prim2SF x) as [sx | [|] | | [|] mx ex]; try discriminate;
    destruct (Prim2SF y) as [sy | [|] | | [|] my ey]; try discriminate;
    intros _ _; try reflexivity; try (now destruct sx, sy).
  cbv beta iota zeta delta [SF64add SFadd cond_Zopp]. cbn [Z.add].
  apply sign_false_not_negative. cbn [binary_normalize].
  apply binary_round_sign.
Qed.

Lemma mul_self_sign (x : float) :
  sf_sign_is false (Prim2SF (x * x)) = true.
Proof.
  rewrite mul_spec.
  destruct (Prim2SF x) as [[|] | [|] | | [|] m e]; try reflexivity;
    apply binary_round_aux_sign.
Qed.

Lemma add_sign (x y : float) :
  sf_sign_is false (Prim2SF x) = true -> sf_sign_is false (Prim2SF y) = true ->
  sf_sign_is false (Prim2SF (x + y)) = true.
Proof.
  rewrite add_spec.
  destruct (Prim2SF x) as [[|] | [|] | | [|] mx ex]; try discriminate;
    destruct (Prim2SF y) as [[|] | [|] | | [|] my ey]; try discriminate;
    intros _ _; try reflexivity.
  cbv beta iota zeta delta [SF64add SFadd cond_Zopp]. cbn [Z.add].
  cbn [binary_normalize]. apply binary_round_sign.
Qed.

Lemma sqrt_sign (x : float) :
  sf_sign_is false (Prim2SF x) = true ->
  sf_sign_is false (Prim2SF (PrimFloat.sqrt x)) = true.
Proof.
  rewrite sqrt_spec.
  destruct (Prim2SF x) as [[|] | [|] | | [|] m e]; try discriminate;
    intros _; try reflexivity.
  cbv beta iota delta [SF64sqrt SFsqrt].
  destruct (SFsqrt_core_binary _ _ _ _) as [[mz ez] lz].
  apply binary_round_aux_sign.
Qed.

(** A value that is not negative, divided by a distance (whose sign bit is
    never set), is not negative. *)
Lemma div_not_negative (x y : float) :
  sf_not_negative (Prim2SF x) = true -> sf_sign_is false (Prim2SF y) = true ->
  sf_not_negative (Prim2SF (x / y)) = true.
Proof.
  rewrite div_spec.
  destruct (Prim2SF x) as [sx | [|] | | [|] mx ex]; try discriminate;
    destruct (Prim2SF y) as [[|] | [|] | | [|] my ey]; try discriminate;
    intros _ _; try reflexivity; try (now destruct sx).
  cbv beta iota delta [SF64div SFdiv].
  destruct (SFdiv_core_binary _ _ _ _ _ _) as [[mz ez] lz].
  apply sign_false_not_negative, binary_round_aux_sign.
Qed.

Lemma np_sum_sign (v : list float) :
  Forall (fun x => sf_sign_is false (Prim2SF x) = true) v ->
  sf_sign_is false (Prim2SF (np_sum v)) = true.
Proof.
  apply (np_sum_closed (fun x => sf_sign_is false (Prim2SF x) = true)).
  - reflexivity.
  - apply add_sign.
Qed.

Lemma vsquare_sign (v : list float) :
  Forall (fun x => sf_sign_is false (Prim2SF x) = true) (vsquare v).
Proof.
  induction v as [| x v IH]; simpl; constructor;
    [apply mul_self_sign | exact IH].
Qed.

(** The distance computed by the loop is zero, positive, or a NaN: its
    sign bit is never set. *)
Lemma loop_distance_sign (pos : list (list float)) (i j : nat) :
  sf_sign_is false (Prim2SF (loop_distance pos i j)) = true.
Proof.
  unfold loop_distance. apply sqrt_sign, np_sum_sign, vsquare_sign.
Qed.

Lemma sub_not_positive (u t : float) :
  sf_not_positive (Prim2SF u) = true -> sf_not_negative (Prim2SF t) = true ->
  sf_not_positive (Prim2SF (u - t)) = true.
Proof.
  rewrite sub_spec.
  destruct (Prim2SF u) as [su | [|] | | [|] mu eu]; try discriminate;
    destruct (Prim2SF t) as [st | [|] | | [|] mt et]; try discriminate;
    intros _ _; try reflexivity; try (now destruct su, st).
  cbv beta iota zeta delta [SF64sub SFsub cond_Zopp].
  cbn [Z.sub Z.opp Z.add].
  apply sign_true_not_positive. cbn [binary_normalize].
  apply binary_round_sign.
Qed.

Lemma np_sum_not_negative (v : list float) :
  Forall (fun x => sf_not_negative (Prim2SF x) = true) v ->
  sf_not_negative (Prim2SF (np_sum v)) = true.
Proof.
  apply (np_sum_closed (fun x => sf_not_negative (Prim2SF x) = true)).
  - reflexivity.
  - apply add_not_negative.
Qed.

(** The elements of [a.T] are elements of [a], or the [0.] that fills a
    row of [a] shorter than the first. *)
Lemma transpose_not_negative (a : list (list float)) :
  Forall (fun x => sf_not_negative (Prim2SF x) = true) (concat a) ->
  Forall (fun x => sf_not_negative (Prim2SF x) = true) (concat (transpose a)).
Proof.
  intros Ha. rewrite Forall_forall in Ha.
  apply Forall_forall. intros e He.
  apply in_concat in He. destruct He as [col [Hcol He]].
  destruct a as [| r rs]; [contradiction |].
  unfold transpose in Hcol.
  apply in_map_iff in Hcol. destruct Hcol as [k [<- _]].
  apply in_map_iff in He. destruct He as [row [<- Hrow]].
  destruct (nth_in_or_default k row fzero) as [Hin | ->].
  - apply Ha. apply in_concat. now exists row.
  - reflexivity.
Qed.

Lemma nth_not_negative (mass : list float) (i : nat) :
  Forall (fun m => (0 <=? m) = true) mass ->
  sf_not_negative (Prim2SF (nth i mass fzero)) = true.
Proof.
  intros Hm. destruct (nth_in_or_default i mass fzero) as [Hin | ->].
  - rewrite Forall_forall in Hm. now apply leb_zero_not_negative, Hm.
  - reflexivity.
Qed.

Lemma loop_term_not_negative
  (pos : list (list float)) (mass : list float) (G : float) (p : nat * nat) :
  Forall (fun m => (0 <=? m) = true) mass -> (0 <=? G) = true ->
  sf_not_negative (Prim2SF (loop_term pos mass G p)) = true.
Proof.
  intros Hm HG. unfold loop_term.
  apply div_not_negative; [| apply loop_distance_sign].
  apply mul_not_negative; [| now apply nth_not_negative].
  apply mul_not_negative; [| now apply nth_not_negative].
  now apply leb_zero_not_negative.
Qed.

Lemma fold_left_not_positive (f : nat * nat -> float) (l : list (nat * nat))
  (a : float) :
  (forall p, sf_not_negative (Prim2SF (f p)) = true) ->
  sf_not_positive (Prim2SF a) = true ->
  sf_not_positive (Prim2SF (fold_left (fun U p => fsub U (f p)) l a)) = true.
Proof.
  intros Hf. revert a. induction l as [| p l IH]; intros a Ha; simpl.
  - exact Ha.
  - apply IH. now apply sub_not_positive.
Qed.

Lemma mul_broadcast_not_negative
  (a : list (list float)) (mass : list float) :
  Forall (fun m => (0 <=? m) = true) mass ->
  Forall (fun x => sf_not_negative (Prim2SF x) = true)
    (concat (mul_broadcast (square2 a) mass)).
Proof.
  intros Hm. apply Forall_forall. intros e He.
  apply in_concat in He. destruct He as [row [Hrow He]].
  unfold mul_broadcast, square2 in Hrow. rewrite map_map in Hrow.
  apply in_map_iff in Hrow. destruct Hrow as [v [<- _]].
  apply in_map_iff in He. destruct He as [[y m] [<- Hin]]. cbn [fst snd].
  apply mul_not_negative.
  - apply in_combine_l in Hin. unfold vsquare in Hin.
    apply in_map_iff in Hin. destruct Hin as [x [<- _]].
    apply mul_self_not_negative.
  - apply in_combine_r in Hin. rewrite Forall_forall in Hm.
    now apply leb_zero_not_negative, Hm.
Qed.

(** X8. In binary64 the kinetic energy is never negative: for masses that
    are all [>= 0] and any velocities, the value returned is not below
    zero (it is zero, positive, or a NaN). *)
Theorem kinetic_energy_not_negative
  (d : nat) (vel : list (list float)) (mass : list float) :
  array_of_dim d vel -> length mass = length vel ->
  Forall (fun m => (0 <=? m) = true) mass ->
  exists K, compute_kinetic_energy vel mass = Ok K /\ (K <? 0) = false.
Proof.
  intros Hd Hlen Hm. eexists. split.
  - apply compute_kinetic_energy_value; [| exact Hlen].
    now apply (array_of_dim_rectangular d).
  - apply not_negative_ltb_zero. apply mul_not_negative; [| reflexivity].
    unfold np_sum2.
    now apply np_sum_not_negative, transpose_not_negative,
      mul_broadcast_not_negative.
Qed.

Lemma kinetic_energy_not_negative_witness :
  exists K,
    compute_kinetic_energy [[3; -4; 0]; [-1; 2; 5]] [2; 0] = Ok K
    /\ (K <? 0) = false.
Proof.
  apply (kinetic_energy_not_negative 3).
  - repeat constructor.
  - reflexivity.
  - repeat constructor.
Defined.

(** X9. In binary64 the potential energy is never positive: for masses
    that are all [>= 0] and [G >= 0], the value returned is not above zero
    (it is zero, negative, or a NaN). *)
Theorem potential_energy_not_positive
  (d : nat) (pos : list (list float)) (mass : list float) (G : float) :
  array_of_dim d pos -> length mass = length pos ->
  Forall (fun m => (0 <=? m) = true) mass -> (0 <=? G) = true ->
  exists U, compute_potential_energy pos mass G = Ok U /\ (0 <? U) = false.
Proof.
  intros Hd Hlen Hm HG. eexists. split.
  - apply compute_potential_energy_loop; [| exact Hlen].
    now apply (array_of_dim_rectangular d).
  - apply not_positive_ltb_zero, fold_left_not_positive; [| reflexivity].
    intros p. now apply loop_term_not_negative.
Qed.

Lemma potential_energy_not_positive_witness :
  exists U,
    compute_potential_energy [[0; 0; 0]; [3; 4; 0]; [0; 0; 12]] [5; 13; 12]
      G_default = Ok U
    /\ (0 <? U) = false.
Proof.
  apply (potential_energy_not_positive 3).
  - repeat constructor.
  - reflexivity.
  - repeat constructor.
  - reflexivity.
Defined.

End Float64Signs.

(** ** Symmetries and propagation, in binary64 *)

Section Float64Symmetries.

Import Energy Float64 Signs Reporting.
Local Open Scope float_scope.

Lemma square_opp (x : float) : square (- x) = square x.
Proof.
  unfold square. cbn [fmul arith]. apply Prim2SF_inj.
  rewrite !mul_spec, opp_spec.
  now destruct (Prim2SF x) as [[|] | [|] | | [|] m e].
Qed.

Lemma square_nth_opp (row : list float) (k : nat) :
  square (nth k (map PrimFloat.opp row) fzero) = square (nth k row fzero).
Proof.
  revert k. induction row as [| x row IH]; intros [| k]; simpl;
    try reflexivity.
  - apply square_opp.
  - apply IH.
Qed.

Lemma rectangular_negate (a : list (list float)) :
  rectangular (negate a) = rectangular a.
Proof.
  destruct a as [| r rs]; [reflexivity |]. simpl.
  induction rs as [| r' rs IH]; simpl; [reflexivity |].
  now rewrite IH, !length_map.
Qed.

Lemma square2_transpose_negate (a : list (list float)) :
  square2 (transpose (negate a)) = square2 (transpose a).
Proof.
  destruct a as [| r rs]; [reflexivity |].
  unfold square2, transpose, negate.
  cbn [map]. rewrite length_map, !map_map.
  apply map_ext. intros k. unfold vsquare. cbn [map].
  rewrite square_nth_opp. f_equal.
  rewrite !map_map. apply map_ext. intros row. apply square_nth_opp.
Qed.

(** X10. Reversing every velocity leaves the kinetic energy as it is, bit
    for bit, in binary64, and the exceptions too. *)
Theorem kinetic_energy_reversal (vel : list (list float)) (mass : list float) :
  compute_kinetic_energy (negate vel) mass = compute_kinetic_energy vel mass.
Proof.
  unfold compute_kinetic_energy, np_array.
  rewrite rectangular_negate.
  destruct (rectangular vel); [| reflexivity]. cbn [bind].
  unfold shape0, negate at 1. rewrite length_map.
  destruct (assert _ _); [| reflexivity]. cbn [bind].
  now rewrite square2_transpose_negate.
Qed.

(** [a + (-b)] is [a - b]. *)
Lemma SFadd_opp (a b : spec_float) :
  SF64add a (SFopp b) = SF64sub a b.
Proof.
  destruct a as [sa | sa | | sa ma ea], b as [sb | sb | | sb mb eb];
    try reflexivity; now destruct sa, sb.
Qed.

Lemma mul_self_opposite (x y : spec_float) :
  sf_opposite x y -> SF64mul x x = SF64mul y y.
Proof.
  intros [-> | [Hx Hy]].
  - now destruct y as [[|] | [|] | | [|] m e].
  - destruct x as [[|] | | |]; try discriminate Hx;
      destruct y as [[|] | | |]; try discriminate Hy; reflexivity.
Qed.

Lemma square_sub_opp (a b : float) :
  square (- a - - b) = square (a - b).
Proof.
  unfold square. cbn [fmul arith]. apply Prim2SF_inj.
  rewrite !mul_spec, !sub_spec, !opp_spec.
  apply mul_self_opposite.
  rewrite <- (SFadd_opp (Prim2SF a) (Prim2SF b)).
  apply sf_opposite_step. now left.
Qed.

Lemma vsquare_vsub_opp (u v : list float) :
  vsquare (vsub (map PrimFloat.opp u) (map PrimFloat.opp v))
  = vsquare (vsub u v).
Proof.
  revert v. induction u as [| a u IH]; intros [| b v]; simpl;
    try reflexivity.
  f_equal; [apply square_sub_opp | apply IH].
Qed.

Lemma loop_term_negate
  (pos : list (list float)) (mass : list float) (G : float) (p : nat * nat) :
  loop_term (negate pos) mass G p = loop_term pos mass G p.
Proof.
  unfold loop_term, loop_distance, negate.
  change (@nil float) with (map PrimFloat.opp []) at 1 2.
  now rewrite !map_nth, vsquare_vsub_opp.
Qed.

(** X11. Reflecting every position through the origin leaves the potential
    energy as it is, bit for bit, in binary64, and the exceptions too. *)
Theorem potential_energy_reflection
  (pos : list (list float)) (mass : list float) (G : float) :
  compute_potential_energy (negate pos) mass G
  = compute_potential_energy pos mass G.
Proof.
  destruct (rectangular pos) eqn:Hrect.
  - assert (Hrect' : rectangular (negate pos) = true)
      by now rewrite rectangular_negate.
    assert (Hlen' : length (negate pos) = length pos)
      by apply length_map.
    destruct (Nat.eq_dec (length mass) (length pos)) as [Hlen | Hlen].
    + rewrite !compute_potential_energy_loop by congruence.
      rewrite Hlen'. f_equal.
      generalize (index_pairs (length pos)) (fzero (F := float)).
      intros l. induction l as [| p l IH]; intros a; cbn [fold_left].
      * reflexivity.
      * now rewrite loop_term_negate, IH.
    + rewrite !compute_potential_energy_mismatch by congruence.
      reflexivity.
  - unfold compute_potential_energy, np_array.
    now rewrite rectangular_negate, Hrect.
Qed.

Lemma add_not_finite_l (u k : float) :
  sf_not_finite (Prim2SF u) = true -> sf_not_finite (Prim2SF (u + k)) = true.
Proof.
  rewrite add_spec.
  destruct (Prim2SF u) as [| su | |]; try discriminate;
    destruct (Prim2SF k) as [sk | sk | | sk mk ek]; intros _;
    try reflexivity; now destruct su, sk.
Qed.

Lemma compute_potential_energy_coincident
  (d : nat) (pos : list (list float)) (mass : list float) (G : float)
  (i j : nat) :
  array_of_dim d pos -> length mass = length pos ->
  (i < j < length pos)%nat ->
  rows_equal (nth i pos []) (nth j pos []) ->
  exists U, compute_potential_energy pos mass G = Ok U
            /\ sf_not_finite (Prim2SF U) = true.
Proof.
  intros Hd Hlen Hij Heq. eexists. split.
  - apply compute_potential_energy_loop; [| exact Hlen].
    now apply (array_of_dim_rectangular d).
  - assert (Hin : In (i, j) (index_pairs (length pos)))
      by now apply in_index_pairs.
    destruct (in_split _ _ Hin) as [l1 [l2 ->]].
    rewrite fold_left_app. cbn [fold_left].
    apply fold_left_not_finite, sub_not_finite_r.
    unfold loop_term. cbn [fst snd].
    apply div_by_zero_not_finite, pzero_or_nan_zero_or_nan.
    now apply loop_distance_equal.
Qed.

Lemma compute_energy_not_finite
  (d d' : nat) (pos vel : list (list float)) (mass : list float) (G : float)
  (i j : nat) :
  array_of_dim d pos -> array_of_dim d' vel ->
  length mass = length pos -> length mass = length vel ->
  (i < j < length pos)%nat ->
  rows_equal (nth i pos []) (nth j pos []) ->
  exists E, compute_energy pos vel mass G = Ok E
            /\ sf_not_finite (Prim2SF E) = true.
Proof.
  intros Hd Hd' Hlen Hlen' Hij Heq.
  destruct (compute_potential_energy_coincident d pos mass G i j)
    as [U [HU HnfU]]; try assumption.
  eexists. split.
  - apply compute_energy_eq; [exact HU |].
    apply compute_kinetic_energy_value; [| exact Hlen'].
    now apply (array_of_dim_rectangular d').
  - now apply add_not_finite_l.
Qed.

(** X12. Two particles at one position make the total energy an infinity
    or a NaN as well: [compute_energy] returns it, whatever the velocities
    are. *)
Theorem compute_energy_coincident
  (d d' : nat) (pos vel : list (list float)) (mass : list float) (G : float)
  (i j : nat) :
  array_of_dim d pos -> array_of_dim d' vel ->
  length mass = length pos -> length mass = length vel ->
  (i < j < length pos)%nat ->
  rows_equal (nth i pos []) (nth j pos []) ->
  exists E, compute_energy pos vel mass G = Ok E /\ not_finite E = true.
Proof.
  intros Hd Hd' Hlen Hlen' Hij Heq.
  destruct (compute_energy_not_finite d d' pos vel mass G i j)
    as [E [HE Hnf]]; try assumption.
  exists E. split; [exact HE | now rewrite not_finite_spec].
Qed.

Lemma compute_energy_coincident_witness :
  exists E,
    compute_energy [[1; 2; 3]; [4; 5; 6]; [1; 2; 3]]
      [[0; 0; 0]; [1; 0; 0]; [0; 1; 0]] [5; 7; 9] G_default = Ok E
    /\ not_finite E = true.
Proof.
  apply (compute_energy_coincident 3 3 _ _ _ _ 0 2).
  - repeat constructor.
  - repeat constructor.
  - reflexivity.
  - reflexivity.
  - simpl. lia.
  - repeat constructor.
Defined.

Lemma length_np_ones (n : nat) : length (np_ones n) = n.
Proof. apply repeat_length. Qed.

(** X13. The energy in the header of [save_results] is computed with unit
    masses, as many as there are positions: on arrays of vectors it is
    defined exactly when there are as many velocities as positions, and the
    failure is the assertion on the velocities (never the one on the
    positions). *)
Theorem save_results_energy_defined
  (d d' : nat) (pos vel : list (list float)) :
  array_of_dim d pos -> array_of_dim d' vel ->
  ((exists E, save_results_energy pos vel = Ok E)
     <-> length vel = length pos)
  /\ (save_results_energy pos vel
      = Raise (AssertionError
                 "input masses must match length of input velocities")
     <-> length vel <> length pos).
Proof.
  intros Hd Hd'. unfold save_results_energy.
  pose proof (length_np_ones (length pos)) as Hones.
  assert (HU : exists U,
             compute_potential_energy pos (np_ones (length pos)) G_default
             = Ok U).
  { eexists. apply compute_potential_energy_loop; [| exact Hones].
    now apply (array_of_dim_rectangular d). }
  destruct HU as [U HU].
  destruct (Nat.eq_dec (length vel) (length pos)) as [Hlen | Hlen].
  - assert (HK : compute_kinetic_energy vel (np_ones (length pos))
                 = Ok (fmul (np_sum2 (mul_broadcast (square2 (transpose vel))
                                        (np_ones (length pos)))) fhalf)).
    { apply compute_kinetic_energy_value; [| congruence].
      now apply (array_of_dim_rectangular d'). }
    rewrite (compute_energy_eq _ _ _ _ _ _ HU HK).
    split.
    + split; [intros _; exact Hlen | intros _; eexists; reflexivity].
    + split; [intros He; discriminate He | intros Hne; contradiction].
  - assert (HK : compute_kinetic_energy vel (np_ones (length pos))
                 = Raise (AssertionError
                            "input masses must match length of input velocities")).
    { apply compute_kinetic_energy_mismatch; [| congruence].
      now apply (array_of_dim_rectangular d'). }
    unfold compute_energy. rewrite HU. cbn [bind]. rewrite HK. cbn [bind].
    split.
    + split; [intros [E HE]; discriminate HE | intros He; contradiction].
    + split; [intros _; exact Hlen | intros _; reflexivity].
Qed.

Lemma save_results_energy_defined_witness :
  ((exists E,
       save_results_energy [[0; 0; 0]; [1; 0; 0]] [[0; 3; 4]]
       = Ok E)
     <-> 1%nat = 2%nat)
  /\ (save_results_energy [[0; 0; 0]; [1; 0; 0]] [[0; 3; 4]]
      = Raise (AssertionError
                 "input masses must match length of input velocities")
     <-> 1%nat <> 2%nat).
Proof.
  apply (save_results_energy_defined 3 3
           [[0; 0; 0]; [1; 0; 0]] [[0; 3; 4]]).
  - repeat constructor.
  - repeat constructor.
Defined.

(** X20. A snapshot with two particles at one position is reported by
    [save_results] with an energy that is an infinity or a NaN. *)
Theorem save_results_energy_coincident
  (d d' : nat) (pos vel : list (list float)) (i j : nat) :
  array_of_dim d pos -> array_of_dim d' vel ->
  length vel = length pos -> (i < j < length pos)%nat ->
  rows_equal (nth i pos []) (nth j pos []) ->
  exists E, save_results_energy pos vel = Ok E /\ not_finite E = true.
Proof.
  intros Hd Hd' Hlen Hij Heq. unfold save_results_energy.
  pose proof (length_np_ones (length pos)) as Hones.
  destruct (compute_energy_not_finite d d' pos vel
              (np_ones (length pos)) G_default i j)
    as [E [HE Hnf]]; try assumption; try congruence.
  exists E. split; [exact HE | now rewrite not_finite_spec].
Qed.

Lemma save_results_energy_coincident_witness :
  exists E,
    save_results_energy [[1; 2; 3]; [1; 2; 3]] [[0; 3; 4]; [0; 0; 0]] = Ok E
    /\ not_finite E = true.
Proof.
  apply (save_results_energy_coincident 3 3 _ _ 0 1).
  - repeat constructor.
  - repeat constructor.
  - reflexivity.
  - simpl. lia.
  - repeat constructor.
Defined.

End Float64Symmetries.

(** ** Which check fails first *)

Section EnergyErrorOrder.

Import Energy.
Context {F : Type} `{Arith F}.

(** X18. [compute_energy] checks the positions first: when [mass] is not
    as long as [pos], the assertion raised is the one on the positions,
    whatever [vel] is (of another length, or not even an array). *)
Theorem compute_energy_first_error
  (d : nat) (pos vel : list (list F)) (mass : list F) (G : F) :
  array_of_dim d pos -> length mass <> length pos ->
  compute_energy pos vel mass G
  = Raise (AssertionError "input masses must match length of input positions").
Proof.
  intros Hd Hlen. apply array_of_dim_rectangular in Hd.
  unfold compute_energy. now rewrite compute_potential_energy_mismatch.
Qed.

End EnergyErrorOrder.

Section EnergyErrorOrderWitness.

Import Energy Float64.

Lemma compute_energy_first_error_witness :
  compute_energy [[0; 0; 0]]%float [[1; 2]; [3]]%float [1; 1]%float 1%float
  = Raise (AssertionError "input masses must match length of input positions").
Proof.
  apply (@compute_energy_first_error float Float64.arith 3).
  - repeat constructor.
  - discriminate.
Defined.

End EnergyErrorOrderWitness.
